(** * elum-utils/env: typed accessors over the process environment and a
    file-loaded overlay.

    The package (env.go, in its current revision, the one with [envMap])
    reads the process environment with [os.LookupEnv], falls back to
    [envMap], a map filled once by [init] from the [*.env] files next to
    the executable, and converts the resolved string with the Go standard
    library ([strconv], [strings], [time]).  A malformed value makes the
    accessor panic.

    The development has four parts: a model of the standard-library
    functions the package calls; the package itself, as programs of a
    small state-and-panic monad over the process state, with the earlier
    revision of env.go (the one without the overlay) and what the test
    file needs to write the environment; the vocabulary of the
    properties; the properties and their proofs, followed by the model
    run on examples. *)

From Stdlib Require Import Ascii ZArith Lia.
From Stdlib Require String.
From stdpp Require Import base option list strings gmap.

Local Open Scope Z_scope.

(** ** Go strings

    A Go string is a sequence of bytes; [string] (a list of [ascii]) is the
    same thing.  [s[:n]] and [s[n:]] are [slice_to] and [slice_from]. *)

Definition byte_of (c : ascii) : Z := Z.of_N (N_of_ascii c).

Fixpoint slice_to (n : nat) (s : string) : string :=
  match n, s with
  | S n', String c s' => String c (slice_to n' s')
  | _, _ => ""
  end.

Fixpoint slice_from (n : nat) (s : string) : string :=
  match n, s with
  | S n', String _ s' => slice_from n' s'
  | _, _ => s
  end.

(** The character [c] as a one-byte string, and the double quote, which the
    messages of [strconv] put around the offending text. *)
Definition str1 (c : ascii) : string := String c "".
Definition dquote : string := str1 "034"%char.

(** ** unicode/utf8 and unicode *)
Module utf8.

Definition RuneError : Z := 0xFFFD.
Definition RuneSelf : Z := 0x80.
Definition UTFMax : nat := 4.

(** The [first] table with [acceptRanges] looked up: for a leading byte,
    the length of the sequence it starts and the range its second byte must
    lie in; [None] stands for both the ASCII entries and the invalid ones
    (the decoder tests ASCII before it comes here). *)
Definition first (b : Z) : option (nat * Z * Z) :=
  if b <? 0xC2 then None
  else if b <=? 0xDF then Some (2%nat, 0x80, 0xBF)
  else if b =? 0xE0 then Some (3%nat, 0xA0, 0xBF)
  else if b <=? 0xEC then Some (3%nat, 0x80, 0xBF)
  else if b =? 0xED then Some (3%nat, 0x80, 0x9F)
  else if b <=? 0xEF then Some (3%nat, 0x80, 0xBF)
  else if b =? 0xF0 then Some (4%nat, 0x90, 0xBF)
  else if b <=? 0xF3 then Some (4%nat, 0x80, 0xBF)
  else if b =? 0xF4 then Some (4%nat, 0x80, 0x8F)
  else None.

Definition between (lo hi b : Z) : bool := (lo <=? b) && (b <=? hi).

(** [utf8.DecodeRuneInString]: the rune at the front of [s] and its width
    in bytes; [(RuneError, 0)] for the empty string and [(RuneError, 1)]
    for an invalid or truncated sequence. *)
Definition DecodeRuneInString (s : string) : Z * nat :=
  match s with
  | "" => (RuneError, 0%nat)
  | String c0 t0 =>
    let s0 := byte_of c0 in
    if s0 <? RuneSelf then (s0, 1%nat)
    else
      match first s0 with
      | None => (RuneError, 1%nat)
      | Some (sz, lo, hi) =>
        match t0 with
        | "" => (RuneError, 1%nat)
        | String c1 t1 =>
          let s1 := byte_of c1 in
          if negb (between lo hi s1) then (RuneError, 1%nat)
          else if (sz <=? 2)%nat then
            (Z.lor (Z.shiftl (Z.land s0 0x1F) 6) (Z.land s1 0x3F), 2%nat)
          else
            match t1 with
            | "" => (RuneError, 1%nat)
            | String c2 t2 =>
              let s2 := byte_of c2 in
              if negb (between 0x80 0xBF s2) then (RuneError, 1%nat)
              else if (sz <=? 3)%nat then
                (Z.lor (Z.shiftl (Z.land s0 0x0F) 12)
                   (Z.lor (Z.shiftl (Z.land s1 0x3F) 6) (Z.land s2 0x3F)),
                 3%nat)
              else
                match t2 with
                | "" => (RuneError, 1%nat)
                | String c3 _ =>
                  let s3 := byte_of c3 in
                  if negb (between 0x80 0xBF s3) then (RuneError, 1%nat)
                  else
                    (Z.lor (Z.shiftl (Z.land s0 0x07) 18)
                       (Z.lor (Z.shiftl (Z.land s1 0x3F) 12)
                          (Z.lor (Z.shiftl (Z.land s2 0x3F) 6)
                             (Z.land s3 0x3F))),
                     4%nat)
                end
            end
        end
      end
  end.

(** [utf8.RuneStart]: the byte is not a continuation byte. *)
Definition RuneStart (b : Z) : bool := negb (Z.land b 0xC0 =? 0x80).

Definition byte_at (s : string) (i : nat) : Z :=
  match String.get i s with Some c => byte_of c | None => 0 end.

(** [utf8.DecodeLastRuneInString]: the rune at the end of [s].  The loop
    walks back from [end-2] to [lim = max (end - UTFMax) 0] looking for a
    byte that starts a rune; [back s start k] is that walk from [start]
    with [k = start - lim] positions below it, and yields the final
    [start] (clamped at 0 as the code does after the loop). *)
Fixpoint back (s : string) (start k : nat) : nat :=
  if RuneStart (byte_at s start) then start
  else match k with
       | O => Nat.pred start
       | S k' => back s (Nat.pred start) k'
       end.

Definition DecodeLastRuneInString (s : string) : Z * nat :=
  let e := String.length s in
  match e with
  | O => (RuneError, 0%nat)
  | S start =>
    let r := byte_at s start in
    if r <? RuneSelf then (r, 1%nat)
    else
      let lim := (e - UTFMax)%nat in
      let start :=
        match start with
        | O => O
        | S p => if (p <? lim)%nat then p else back s p (p - lim)
        end in
      let '(r, size) := DecodeRuneInString (slice_from start s) in
      if negb (start + size =? e)%nat then (RuneError, 1%nat) else (r, size)
  end.

(** [utf8.RuneCountInString]: every invalid byte counts as one rune of
    width one, so the count is the number of decoding steps that consume
    the string. *)
Fixpoint count_go (fuel : nat) (s : string) : nat :=
  match fuel, s with
  | S fuel', String _ _ =>
    S (count_go fuel' (slice_from (snd (DecodeRuneInString s)) s))
  | _, _ => O
  end.

Definition RuneCountInString (s : string) : nat :=
  count_go (String.length s) s.

End utf8.

Module unicode.

(** [unicode.IsSpace]: the Latin-1 switch, then the [White_Space] range
    table. *)
Definition IsSpace (r : Z) : bool :=
  if r <=? 0xFF then
    (r =? 0x09) || (r =? 0x0A) || (r =? 0x0B) || (r =? 0x0C) || (r =? 0x0D)
    || (r =? 0x20) || (r =? 0x85) || (r =? 0xA0)
  else
    (r =? 0x1680) || utf8.between 0x2000 0x200A r
    || utf8.between 0x2028 0x2029 r || (r =? 0x202F) || (r =? 0x205F)
    || (r =? 0x3000).

End unicode.

(** ** strings *)
Module strings.

(** [indexFunc] and [lastIndexFunc]: the index of the first (last) rune
    [r] with [f r = truth]; [None] is Go's [-1].  The loops run at most
    once per byte, which is the fuel. *)
Fixpoint indexFunc_go (fuel : nat) (f : Z -> bool) (truth : bool)
    (s : string) (i : nat) : option nat :=
  match fuel, s with
  | S fuel', String _ _ =>
    let '(r, size) := utf8.DecodeRuneInString s in
    if Bool.eqb (f r) truth then Some i
    else indexFunc_go fuel' f truth (slice_from size s) (i + size)
  | _, _ => None
  end.

Definition indexFunc (s : string) (f : Z -> bool) (truth : bool) : option nat :=
  indexFunc_go (String.length s) f truth s 0.

Fixpoint lastIndexFunc_go (fuel : nat) (f : Z -> bool) (truth : bool)
    (s : string) (i : nat) : option nat :=
  match fuel, i with
  | S fuel', S _ =>
    let '(r, size) := utf8.DecodeLastRuneInString (slice_to i s) in
    let i := (i - size)%nat in
    if Bool.eqb (f r) truth then Some i
    else lastIndexFunc_go fuel' f truth s i
  | _, _ => None
  end.

Definition lastIndexFunc (s : string) (f : Z -> bool) (truth : bool) : option nat :=
  lastIndexFunc_go (String.length s) f truth s (String.length s).

Definition TrimLeftFunc (s : string) (f : Z -> bool) : string :=
  match indexFunc s f false with
  | None => ""
  | Some i => slice_from i s
  end.

Definition TrimRightFunc (s : string) (f : Z -> bool) : string :=
  match lastIndexFunc s f false with
  | Some i =>
    if utf8.RuneSelf <=? utf8.byte_at s i
    then slice_to (i + snd (utf8.DecodeRuneInString (slice_from i s))) s
    else slice_to (i + 1) s
  | None => slice_to 0 s
  end.

Definition TrimFunc (s : string) (f : Z -> bool) : string :=
  TrimRightFunc (TrimLeftFunc s f) f.

(** [strings.TrimSpace]: leading and trailing white space, as Unicode
    defines it, removed.  The library first skips ASCII white space at
    both ends byte by byte and calls [TrimFunc] (or [TrimRightFunc]) on
    what is left as soon as it meets a byte above 0x7F; the bytes skipped
    are white space, so the result is that of [TrimFunc] on the whole
    string. *)
Definition TrimSpace (s : string) : string := TrimFunc s unicode.IsSpace.

(** [strings.HasPrefix]. *)
Definition HasPrefix (s prefix : string) : bool := String.prefix prefix s.

(** [strings.Index]: the position of the first occurrence of [substr] in
    [s]; [None] is Go's [-1]. *)
Fixpoint Index (s substr : string) : option nat :=
  if String.prefix substr s then Some O
  else match s with
       | "" => None
       | String _ s' => S <$> Index s' substr
       end.

(** [strings.Count]: the number of non-overlapping occurrences of
    [substr]; for the empty [substr], one more than the number of runes. *)
Fixpoint Count_go (fuel : nat) (s substr : string) : nat :=
  match fuel with
  | O => O
  | S fuel' =>
    match Index s substr with
    | None => O
    | Some i => S (Count_go fuel' (slice_from (i + String.length substr) s) substr)
    end
  end.

Definition Count (s substr : string) : nat :=
  match substr with
  | "" => S (utf8.RuneCountInString s)
  | _ => Count_go (String.length s) s substr
  end.

(** [explode]: [s] cut into its UTF-8 sequences, at most [n] of them
    ([n < 0]: no limit), the last one holding the rest.  Invalid bytes are
    sliced individually (the library's behaviour since Go 1.20; before, a
    slot other than the last holding an invalid byte was replaced by the
    encoding of U+FFFD). *)
Fixpoint explode_go (k : nat) (s : string) : list string :=
  match k with
  | O => [s]
  | S k' =>
    let size := snd (utf8.DecodeRuneInString s) in
    slice_to size s :: explode_go k' (slice_from size s)
  end.

Definition explode (s : string) (n : Z) : list string :=
  let l := Z.of_nat (utf8.RuneCountInString s) in
  let n := if (n <? 0) || (l <? n) then l else n in
  if 0 <? n then explode_go (Z.to_nat (n - 1)) s else [].

(** [genSplit]: the loop cuts at the first [sep] at most [n - 1] times. *)
Fixpoint genSplit_go (k : nat) (s sep : string) (sepSave : nat) : list string :=
  match k with
  | O => [s]
  | S k' =>
    match Index s sep with
    | None => [s]
    | Some m =>
      slice_to (m + sepSave) s
        :: genSplit_go k' (slice_from (m + String.length sep) s) sep sepSave
    end
  end.

Definition genSplit (s sep : string) (sepSave : nat) (n : Z) : list string :=
  if n =? 0 then []
  else
    match sep with
    | "" => explode s n
    | _ =>
      let n := if n <? 0 then Z.of_nat (Count s sep) + 1 else n in
      let n := if Z.of_nat (String.length s) + 1 <? n
               then Z.of_nat (String.length s) + 1 else n in
      genSplit_go (Z.to_nat (n - 1)) s sep sepSave
    end.

Definition SplitN (s sep : string) (n : Z) : list string := genSplit s sep 0 n.
Definition Split (s sep : string) : list string := genSplit s sep 0 (-1).

End strings.

(** ** strconv *)
Module strconv.

(** The word size of [int]; the package is modelled for 64-bit platforms. *)
Definition IntSize : Z := 64.

Inductive ErrKind := ErrSyntax | ErrRange.

(** [strconv.NumError]: the function that failed, its input, the reason. *)
Record NumError := { Func : string; Num : string; Err : ErrKind }.

Definition ErrKind_Error (k : ErrKind) : string :=
  match k with
  | ErrSyntax => "invalid syntax"
  | ErrRange => "value out of range"
  end.

Definition syntaxError (fn str : string) : NumError :=
  {| Func := fn; Num := str; Err := ErrSyntax |}.
Definition rangeError (fn str : string) : NumError :=
  {| Func := fn; Num := str; Err := ErrRange |}.

(** [strconv.ParseBool]: a switch on the string with two lists of cases. *)
Definition ParseBool (str : string) : NumError + bool :=
  if bool_decide (str ∈ ["1"; "t"; "T"; "true"; "TRUE"; "True"]) then inr true
  else if bool_decide (str ∈ ["0"; "f"; "F"; "false"; "FALSE"; "False"])
  then inr false
  else inl (syntaxError "ParseBool" str).

(** A decimal digit's value. *)
Definition digit (c : ascii) : option Z :=
  let b := byte_of c in
  if utf8.between 48 57 b then Some (b - 48) else None.

(** The digit loop of [strconv.ParseUint] in base 10 at 64 bits: [n] is a
    [uint64]; the loop stops with a syntax error at the first byte that is
    not a digit and with a range error as soon as the value overflows. *)
Fixpoint ParseUint_go (s : string) (n : Z) : ErrKind + Z :=
  match s with
  | "" => inr n
  | String c s' =>
    match digit c with
    | None => inl ErrSyntax
    | Some d =>
      let cutoff := (2 ^ 64 - 1) / 10 + 1 in
      let maxVal := 2 ^ 64 - 1 in
      if cutoff <=? n then inl ErrRange
      else
        let n := n * 10 in
        let n1 := (n + d) mod 2 ^ 64 in
        if (n1 <? n) || (maxVal <? n1) then inl ErrRange
        else ParseUint_go s' n1
    end
  end.

Definition ParseUint10 (s : string) : ErrKind + Z :=
  match s with
  | "" => inl ErrSyntax
  | _ => ParseUint_go s 0
  end.

(** [strconv.ParseInt s 10 0]: an optional sign, then [ParseUint]; a range
    error of [ParseUint] comes with the largest [uint64], which the cutoff
    test turns into a range error of [ParseInt]. *)
Definition ParseInt10 (fn : string) (s : string) : NumError + Z :=
  match s with
  | "" => inl (syntaxError fn s)
  | String c s' =>
    let s0 := s in
    let neg := bool_decide (c = "-"%char) in
    let s := if bool_decide (c = "+"%char) || neg then s' else s in
    match ParseUint10 s with
    | inl ErrSyntax => inl (syntaxError fn s0)
    | r =>
      let un := match r with inr un => un | inl _ => 2 ^ 64 - 1 end in
      let cutoff := 2 ^ (IntSize - 1) in
      if negb neg && (cutoff <=? un) then inl (rangeError fn s0)
      else if neg && (cutoff <? un) then inl (rangeError fn s0)
      else inr (if neg then - un else un)
    end
  end.

(** [strconv.Atoi]: [ParseInt s 10 0] with the error renamed; the fast path
    for short inputs computes the same value and reports the same syntax
    error. *)
Definition Atoi (s : string) : NumError + Z := ParseInt10 "Atoi" s.

End strconv.

(** ** Errors

    A Go [error] as the package meets it: a [*strconv.NumError], or the
    text of an [errors.New] (what [time.ParseDuration] returns). *)
Inductive error :=
| numError (e : strconv.NumError)
| errorString (s : string).

(** The result of a call that returns [(T, error)]: the error when it is
    not nil, else the value. *)
Abbreviation parsed T := (error + T)%type.

Definition lift_num {T} (r : strconv.NumError + T) : parsed T :=
  match r with
  | inl e => inl (numError e)
  | inr v => inr v
  end.

(** [time.Duration]: a count of nanoseconds in an [int64]. *)
Definition Duration : Type := Z.

(** ** The process state

    What the package can observe of the machine it runs on: the result of
    [os.Executable], the files [filepath.Glob] finds for the pattern
    [*.env] in the executable's directory, and what reading a file yields.
    A file's content is the sequence of lines [bufio.Scanner] delivers
    (the scanner splits at newlines, drops a trailing carriage return, and
    stops at a read error or at a line above its buffer limit). *)
Record Host := {
  Executable : option string;
  (* filepath.Glob (filepath.Join (filepath.Dir exePath) "*.env"), [None]
     when Glob reports an error *)
  GlobEnv : string -> option (list string);
  (* os.Open followed by the lines scanned, [None] when Open fails *)
  Open : string -> option (list string)
}.

(** The state the package runs in: the process environment (what
    [os.LookupEnv] reads), the package variable [envMap], and the host. *)
Record World := {
  environ : gmap string string;
  envMap : gmap string string;
  host : Host
}.

(** A call either returns or panics with a value; every panic of the
    package carries the string built by [fmt.Sprintf]. *)
Inductive outcome (A : Type) :=
| Return (a : A)
| Panic (msg : string).
Arguments Return {A} a.
Arguments Panic {A} msg.

(** Programs: state passing with panics. *)
Definition M (A : Type) : Type := World -> outcome A * World.

Definition ret {A} (a : A) : M A := fun w => (Return a, w).

Definition bind {A B} (m : M A) (f : A -> M B) : M B :=
  fun w =>
    match m w with
    | (Return a, w') => f a w'
    | (Panic msg, w') => (Panic msg, w')
    end.

Definition panic {A} (msg : string) : M A := fun w => (Panic msg, w).

Declare Scope go_scope.
Delimit Scope go_scope with go.
Notation "x <- m ;; k" := (bind m (fun x => k))
  (at level 100, m at next level, right associativity) : go_scope.
Local Open Scope go_scope.

(** The result and the final state of a program. *)
Definition result {A} (m : M A) (w : World) : outcome A := fst (m w).
Definition after {A} (m : M A) (w : World) : World := snd (m w).

(** The primitives.  [os_LookupEnv] is [os.LookupEnv]: [Some] is
    [(value, true)].  [envMap_load] is the two-value read [envMap[key]],
    [envMap_store] the assignment [envMap[key] = val].  Nothing here
    assigns [environ]: the package never calls [os.Setenv]. *)
Definition os_LookupEnv (key : string) : M (option string) :=
  fun w => (Return (environ w !! key), w).

Definition envMap_load (key : string) : M (option string) :=
  fun w => (Return (envMap w !! key), w).

Definition envMap_store (key val : string) : M unit :=
  fun w => (Return tt,
            {| environ := environ w;
               envMap := <[key := val]> (envMap w);
               host := host w |}).

Definition os_Executable : M (option string) :=
  fun w => (Return (Executable (host w)), w).

Definition filepath_Glob_env (exePath : string) : M (option (list string)) :=
  fun w => (Return (GlobEnv (host w) exePath), w).

Definition os_Open_lines (file : string) : M (option (list string)) :=
  fun w => (Return (Open (host w) file), w).

(** [for _, x := range l { body }] with the variables the body updates
    threaded as [acc]. *)
Fixpoint for_range {A S} (l : list A) (body : S -> A -> M S) (acc : S) : M S :=
  match l with
  | [] => ret acc
  | x :: l' => acc' <- body acc x ;; for_range l' body acc'
  end.

(** ** The package *)

(** [init]: fills [envMap] from the [*.env] files. *)
Definition init_line (_ : unit) (text : string) : M unit :=
  let line := strings.TrimSpace text in
  (* Ignore empty lines and comments *)
  if bool_decide (line = "") || strings.HasPrefix line "#" then ret tt
  else
    (* Parse key=value pairs *)
    match strings.SplitN line "=" 2 with
    | [k; v] =>
      let key := strings.TrimSpace k in
      let val := strings.TrimSpace v in
      (* Only load the value if it's not already in the system environment *)
      e <- os_LookupEnv key ;;
      match e with
      | None => envMap_store key val
      | Some _ => ret tt
      end
    | _ => ret tt
    end.

Definition init_file (_ : unit) (file : string) : M unit :=
  f <- os_Open_lines file ;;
  match f with
  | None => ret tt
  | Some lines => for_range lines init_line tt
  end.

Definition init : M unit :=
  exe <- os_Executable ;;
  match exe with
  | None => ret tt
  | Some exePath =>
    fs <- filepath_Glob_env exePath ;;
    match fs with
    | None => ret tt
    | Some files => for_range files init_file tt
    end
  end.

(** [GetEnvString]. *)
Definition GetEnvString (key defaultValue : string) : M string :=
  e <- os_LookupEnv key ;;
  match e with
  | Some val => ret val
  | None =>
    o <- envMap_load key ;;
    match o with
    | Some val => ret val
    | None => ret defaultValue
    end
  end.

(** [GetEnvArrayString]. *)
Definition GetEnvArrayString (key split : string) (defaultValue : list string)
    : M (list string) :=
  val <- GetEnvString key "" ;;
  if bool_decide (val <> "") then ret (strings.Split val split)
  else ret defaultValue.

(** ** The earlier revision

    env.go as it stood before the overlay (the first part of the file):
    the same accessors, the map form apart, each reading the process
    environment only and converting whatever value the variable has, the
    empty string included.  [Error] is [err.Error()]. *)
Module Earlier.
Section Revision.

Context (Error : error -> string).
Context (float64 : Type) (ParseFloat : string -> parsed float64).
Context (ParseDuration : string -> parsed Duration).

Definition GetEnvString (key defaultValue : string) : M string :=
  e <- os_LookupEnv key ;;
  match e with
  | Some value => ret value
  | None => ret defaultValue
  end.

Definition GetEnvArrayString (key split : string) (defaultValue : list string)
    : M (list string) :=
  e <- os_LookupEnv key ;;
  match e with
  | Some value => ret (strings.Split value split)
  | None => ret defaultValue
  end.

Definition GetEnvInt (key : string) (defaultValue : Z) : M Z :=
  e <- os_LookupEnv key ;;
  match e with
  | Some value =>
    match lift_num (strconv.Atoi value) with
    | inl err =>
      panic ("Environment variable " +:+ key
               +:+ " is not a valid integer: " +:+ Error err)
    | inr intValue => ret intValue
    end
  | None => ret defaultValue
  end.

Definition GetEnvDuration (key : string) (defaultValue : Duration) : M Duration :=
  e <- os_LookupEnv key ;;
  match e with
  | Some value =>
    match ParseDuration value with
    | inl err =>
      panic ("Environment variable " +:+ key
               +:+ " is not a valid duration: " +:+ Error err)
    | inr durationValue => ret durationValue
    end
  | None => ret defaultValue
  end.

Definition GetEnvBool (key : string) (defaultValue : bool) : M bool :=
  e <- os_LookupEnv key ;;
  match e with
  | Some value =>
    match lift_num (strconv.ParseBool value) with
    | inl err =>
      panic ("Environment variable " +:+ key
               +:+ " is not a valid boolean: " +:+ Error err)
    | inr boolValue => ret boolValue
    end
  | None => ret defaultValue
  end.

Definition GetEnvFloat64 (key : string) (defaultValue : float64) : M float64 :=
  e <- os_LookupEnv key ;;
  match e with
  | Some value =>
    match ParseFloat value with
    | inl err =>
      panic ("Environment variable " +:+ key
               +:+ " is not a valid float64: " +:+ Error err)
    | inr floatValue => ret floatValue
    end
  | None => ret defaultValue
  end.

Definition GetEnvArrayInt (key split : string) (defaultValue : list Z)
    : M (list Z) :=
  e <- os_LookupEnv key ;;
  match e with
  | Some value =>
    let stringValues := strings.Split value split in
    for_range stringValues
      (fun intValues str =>
         match lift_num (strconv.Atoi str) with
         | inl _ =>
           panic ("Environment variable " +:+ key
                    +:+ " array contains an invalid integer: " +:+ str)
         | inr intValue => ret (intValues ++ [intValue])
         end) []
  | None => ret defaultValue
  end.

Definition GetEnvArrayDuration (key split : string)
    (defaultValue : list Duration) : M (list Duration) :=
  e <- os_LookupEnv key ;;
  match e with
  | Some value =>
    let stringValues := strings.Split value split in
    for_range stringValues
      (fun durationValues str =>
         match ParseDuration str with
         | inl _ =>
           panic ("Environment variable " +:+ key
                    +:+ " array contains an invalid duration: " +:+ str)
         | inr durationValue => ret (durationValues ++ [durationValue])
         end) []
  | None => ret defaultValue
  end.

End Revision.
End Earlier.

(** ** Writing the environment

    The package does not write the process environment; its tests do,
    with [os.Setenv] and [os.Unsetenv].  As on Unix, [Setenv] refuses an
    empty key, a key with [=] or a NUL byte in it, and a value with a NUL
    byte, and changes nothing then; [Unsetenv] always succeeds. *)
Fixpoint has_byte (c : ascii) (s : string) : bool :=
  match s with
  | "" => false
  | String a s' => bool_decide (a = c) || has_byte c s'
  end.

Definition os_Setenv (key value : string) : M (option error) :=
  fun w =>
    if bool_decide (key = "") || has_byte "=" key || has_byte "000" key
       || has_byte "000" value
    then (Return (Some (errorString "setenv: invalid argument")), w)
    else (Return None,
          {| environ := <[key := value]> (environ w);
             envMap := envMap w;
             host := host w |}).

Definition os_Unsetenv (key : string) : M (option error) :=
  fun w =>
    (Return None,
     {| environ := delete key (environ w);
        envMap := envMap w;
        host := host w |}).

(** [defer deferred] ahead of [body]: the deferred call runs when the
    body has returned or panicked, and the body's outcome stands. *)
Definition with_defer {A B} (deferred : M B) (body : M A) : M A :=
  fun w =>
    let '(o, w1) := body w in
    let '(_, w2) := deferred w1 in
    (o, w2).

(** ** Stand-ins to run the model

    [strconv.Quote], [strconv.ParseFloat] and [time.ParseDuration] are
    parameters of the package below.  To evaluate it on examples they are
    instantiated with these: quoting that adds the two quotes and escapes
    nothing, and parsers that know whole numbers only (of seconds, for a
    duration). *)
Definition sample_Quote (s : string) : string := dquote +:+ s +:+ dquote.

Definition sample_ParseFloat (s : string) : parsed Z :=
  match strconv.ParseInt10 "ParseFloat" s with
  | inl e => inl (numError e)
  | inr n => inr n
  end.

Definition sample_ParseDuration (s : string) : parsed Duration :=
  match String.rev s with
  | String "s" digits =>
    match strconv.ParseUint10 (String.rev digits) with
    | inr n => inr (n * 1000000000)
    | inl _ => inl (errorString ("time: invalid duration " +:+ sample_Quote s))
    end
  | _ => inl (errorString ("time: invalid duration " +:+ sample_Quote s))
  end.

(** A host with three files listed next to the executable, the last of
    which cannot be opened, and a process environment. *)
Definition sample_host : Host :=
  {| Executable := Some "/srv/app/server";
     GlobEnv := fun _ =>
       Some ["/srv/app/a.env"; "/srv/app/b.env"; "/srv/app/c.env"];
     Open := fun file =>
       if bool_decide (file = "/srv/app/a.env") then
         Some ["# service"; ""; "  PORT = 8080 "; "HOME=/tmp"; "NAME=first";
               "orphan"; "IDS=1,2,3"]
       else if bool_decide (file = "/srv/app/b.env") then
         Some ["NAME=second"; "URL=http://h/?a=b"; "EMPTY=8080"]
       else None |}.

Definition sample_environ : gmap string string :=
  {[ "HOME" := "/root"; "DEBUG" := "tRUE"; "EMPTY" := ""; "TAGS" := "a, b";
     "VERBOSE" := "true"; "TEST_ARRAY_STRING" := "a,b,c";
     "TEST_ARRAY_INT" := "1,x,3"; "TEST_MAP" := "key1:val1,key2:val2";
     "BAD_MAP" := "key1val1"; "TEST_ARRAY_DURATION" := "60s,120s,180s" ]}.

(** The state once [init] has run there. *)
Definition sample_world : World :=
  {| environ := sample_environ;
     envMap := {[ "PORT" := "8080"; "NAME" := "second";
                  "URL" := "http://h/?a=b"; "IDS" := "1,2,3" ]};
     host := sample_host |}.

(** A second state: no file could be looked for, and the values are in the
    process environment. *)
Definition sample_host2 : Host :=
  {| Executable := None; GlobEnv := fun _ => None; Open := fun _ => None |}.

Definition sample_environ2 : gmap string string :=
  {[ "LABELS" := "a:1, b : x:y ,a:2"; "PLAIN" := "novalue";
     "LEADING" := ",1,2"; "PORT" := "8080"; "BLANK" := "" ]}.

Definition sample_world2 : World :=
  {| environ := sample_environ2; envMap := ∅; host := sample_host2 |}.

(** A third state: [PORT] is in both layers, and [BIG] holds a numeral
    one above the largest [int]. *)
Definition sample_world3 : World :=
  {| environ := {[ "PORT" := "9090"; "BIG" := "9223372036854775808";
                   "SIZES" := "1,9223372036854775808" ]};
     envMap := {[ "PORT" := "8080"; "LEVEL" := "3" ]};
     host := sample_host2 |}.

Section Accessors.

(** The standard-library functions taken as given: [strconv.Quote] (it
    escapes by Unicode tables), [strconv.ParseFloat] at 64 bits with the
    type [float64], and [time.ParseDuration] (it rounds through floating
    point). *)
Context (Quote : string -> string).
Context (float64 : Type) (ParseFloat : string -> parsed float64).
Context (ParseDuration : string -> parsed Duration).

(** [err.Error()], which is what [%v] prints. *)
Definition Error (err : error) : string :=
  match err with
  | numError e =>
    "strconv." +:+ strconv.Func e +:+ ": parsing " +:+ Quote (strconv.Num e)
      +:+ ": " +:+ strconv.ErrKind_Error (strconv.Err e)
  | errorString s => s
  end.

(** [GetEnvInt]. *)
Definition GetEnvInt (key : string) (defaultValue : Z) : M Z :=
  val <- GetEnvString key "" ;;
  if bool_decide (val <> "") then
    match lift_num (strconv.Atoi val) with
    | inl err =>
      panic ("Environment variable " +:+ key
               +:+ " is not a valid integer: " +:+ Error err)
    | inr intValue => ret intValue
    end
  else ret defaultValue.

(** [GetEnvDuration]. *)
Definition GetEnvDuration (key : string) (defaultValue : Duration) : M Duration :=
  val <- GetEnvString key "" ;;
  if bool_decide (val <> "") then
    match ParseDuration val with
    | inl err =>
      panic ("Environment variable " +:+ key
               +:+ " is not a valid duration: " +:+ Error err)
    | inr durationValue => ret durationValue
    end
  else ret defaultValue.

(** [GetEnvBool]. *)
Definition GetEnvBool (key : string) (defaultValue : bool) : M bool :=
  val <- GetEnvString key "" ;;
  if bool_decide (val <> "") then
    match lift_num (strconv.ParseBool val) with
    | inl err =>
      panic ("Environment variable " +:+ key
               +:+ " is not a valid boolean: " +:+ Error err)
    | inr boolValue => ret boolValue
    end
  else ret defaultValue.

(** [GetEnvFloat64]. *)
Definition GetEnvFloat64 (key : string) (defaultValue : float64) : M float64 :=
  val <- GetEnvString key "" ;;
  if bool_decide (val <> "") then
    match ParseFloat val with
    | inl err =>
      panic ("Environment variable " +:+ key
               +:+ " is not a valid float64: " +:+ Error err)
    | inr floatValue => ret floatValue
    end
  else ret defaultValue.

(** [GetEnvArrayInt]: the loop appends to [intValues]. *)
Definition GetEnvArrayInt_body (key : string) (intValues : list Z) (str : string)
    : M (list Z) :=
  match lift_num (strconv.Atoi str) with
  | inl _ =>
    panic ("Environment variable " +:+ key
             +:+ " array contains an invalid integer: " +:+ str)
  | inr intValue => ret (intValues ++ [intValue])
  end.

Definition GetEnvArrayInt (key split : string) (defaultValue : list Z)
    : M (list Z) :=
  val <- GetEnvString key "" ;;
  if bool_decide (val <> "") then
    let stringValues := strings.Split val split in
    for_range stringValues (GetEnvArrayInt_body key) []
  else ret defaultValue.

(** [GetEnvArrayDuration]. *)
Definition GetEnvArrayDuration_body (key : string)
    (durationValues : list Duration) (str : string) : M (list Duration) :=
  match ParseDuration str with
  | inl _ =>
    panic ("Environment variable " +:+ key
             +:+ " array contains an invalid duration: " +:+ str)
  | inr durationValue => ret (durationValues ++ [durationValue])
  end.

Definition GetEnvArrayDuration (key split : string)
    (defaultValue : list Duration) : M (list Duration) :=
  val <- GetEnvString key "" ;;
  if bool_decide (val <> "") then
    let stringValues := strings.Split val split in
    for_range stringValues (GetEnvArrayDuration_body key) []
  else ret defaultValue.

(** [GetEnvMapStringString]: the loop assigns into [result]. *)
Definition GetEnvMapStringString_body (key kvDelimiter : string)
    (result : gmap string string) (entry : string) : M (gmap string string) :=
  match strings.SplitN entry kvDelimiter 2 with
  | [k; v] => ret (<[strings.TrimSpace k := strings.TrimSpace v]> result)
  | _ =>
    panic ("Environment variable " +:+ key
             +:+ " contains invalid map entry: " +:+ entry)
  end.

Definition GetEnvMapStringString (key entryDelimiter kvDelimiter : string)
    (defaultValue : gmap string string) : M (gmap string string) :=
  val <- GetEnvString key "" ;;
  if bool_decide (val <> "") then
    let entries := strings.Split val entryDelimiter in
    for_range entries (GetEnvMapStringString_body key kvDelimiter) ∅
  else ret defaultValue.

(** ** The accessor surface as data

    A call of one of the nine accessors with its arguments, and the value
    it returns, so that a property of every accessor is one statement. *)
Inductive call :=
| CallString (key defaultValue : string)
| CallArrayString (key split : string) (defaultValue : list string)
| CallInt (key : string) (defaultValue : Z)
| CallDuration (key : string) (defaultValue : Duration)
| CallBool (key : string) (defaultValue : bool)
| CallFloat64 (key : string) (defaultValue : float64)
| CallArrayInt (key split : string) (defaultValue : list Z)
| CallArrayDuration (key split : string) (defaultValue : list Duration)
| CallMapStringString (key entryDelimiter kvDelimiter : string)
    (defaultValue : gmap string string).

Inductive value :=
| VString (s : string)
| VArrayString (l : list string)
| VInt (n : Z)
| VDuration (d : Duration)
| VBool (b : bool)
| VFloat64 (f : float64)
| VArrayInt (l : list Z)
| VArrayDuration (l : list Duration)
| VMapStringString (m : gmap string string).

Definition fmap_M {A B} (f : A -> B) (m : M A) : M B :=
  a <- m ;; ret (f a).

Definition run (c : call) : M value :=
  match c with
  | CallString key d => fmap_M VString (GetEnvString key d)
  | CallArrayString key split d =>
    fmap_M VArrayString (GetEnvArrayString key split d)
  | CallInt key d => fmap_M VInt (GetEnvInt key d)
  | CallDuration key d => fmap_M VDuration (GetEnvDuration key d)
  | CallBool key d => fmap_M VBool (GetEnvBool key d)
  | CallFloat64 key d => fmap_M VFloat64 (GetEnvFloat64 key d)
  | CallArrayInt key split d => fmap_M VArrayInt (GetEnvArrayInt key split d)
  | CallArrayDuration key split d =>
    fmap_M VArrayDuration (GetEnvArrayDuration key split d)
  | CallMapStringString key ed kd d =>
    fmap_M VMapStringString (GetEnvMapStringString key ed kd d)
  end.

Definition call_key (c : call) : string :=
  match c with
  | CallString key _ | CallArrayString key _ _ | CallInt key _
  | CallDuration key _ | CallBool key _ | CallFloat64 key _
  | CallArrayInt key _ _ | CallArrayDuration key _ _
  | CallMapStringString key _ _ _ => key
  end.

Definition call_default (c : call) : value :=
  match c with
  | CallString _ d => VString d
  | CallArrayString _ _ d => VArrayString d
  | CallInt _ d => VInt d
  | CallDuration _ d => VDuration d
  | CallBool _ d => VBool d
  | CallFloat64 _ d => VFloat64 d
  | CallArrayInt _ _ d => VArrayInt d
  | CallArrayDuration _ _ d => VArrayDuration d
  | CallMapStringString _ _ _ d => VMapStringString d
  end.

Definition is_plain_string (c : call) : bool :=
  match c with
  | CallString _ _ => true
  | _ => false
  end.

(** ** Vocabulary of the properties *)

(** The value a key resolves to: the process environment first, then the
    overlay.  [raw] is what the typed accessors go on with, the result of
    [GetEnvString key ""]. *)
Definition effective (w : World) (key : string) : option string :=
  match environ w !! key with
  | Some v => Some v
  | None => envMap w !! key
  end.

Definition raw (w : World) (key : string) : string :=
  default "" (effective w key).

(** The state with another overlay. *)
Definition with_envMap (m : gmap string string) (w : World) : World :=
  {| environ := environ w; envMap := m; host := host w |}.

(** [sub] occurs in [s]. *)
Definition Contains (s sub : string) : Prop :=
  exists pre post, s = pre +:+ sub +:+ post.

(** A program that reads nothing and writes nothing, and one that leaves
    the state as it found it. *)
Definition pure {A} (m : M A) : Prop := exists o, forall w, m w = (o, w).
Definition readonly {A} (m : M A) : Prop := forall w, after m w = w.

(** *** The overlay, as the specification words it

    A line is trimmed; an empty line or one that starts with [#] is
    skipped; the rest is cut at the first [=] into a key and a value, each
    trimmed; a line with no [=] is skipped. *)
Fixpoint cut_first (c : ascii) (s : string) : option (string * string) :=
  match s with
  | "" => None
  | String a s' =>
    if bool_decide (a = c) then Some ("", s')
    else
      match cut_first c s' with
      | Some (k, v) => Some (String a k, v)
      | None => None
      end
  end.

Definition starts_with (c : ascii) (s : string) : bool :=
  match s with
  | String a _ => bool_decide (a = c)
  | "" => false
  end.

Definition parse_line (text : string) : option (string * string) :=
  let line := strings.TrimSpace text in
  if bool_decide (line = "") then None
  else if starts_with "#" line then None
  else
    match cut_first "=" line with
    | Some (k, v) => Some (strings.TrimSpace k, strings.TrimSpace v)
    | None => None
    end.

(** A pair enters the overlay when its key is not in the process
    environment, whatever the overlay holds. *)
Definition insert_pair (env : gmap string string)
    (m : gmap string string) (p : string * string) : gmap string string :=
  match env !! p.1 with
  | None => <[p.1 := p.2]> m
  | Some _ => m
  end.

(** One line of a file: the overlay takes the pair the line parses to. *)
Definition line_step (env m : gmap string string) (text : string)
    : gmap string string :=
  match parse_line text with
  | Some p => insert_pair env m p
  | None => m
  end.

Definition overlay_from (env m : gmap string string) (lines : list string)
    : gmap string string :=
  foldl (insert_pair env) m (omap parse_line lines).

Definition overlay_of (env : gmap string string) (lines : list string)
    : gmap string string :=
  overlay_from env ∅ lines.

(** The lines of the discovered files, in the order of the scan: none
    when the executable or the directory listing is not available, and
    none for a file that cannot be opened. *)
Definition file_lines (h : Host) (file : string) : list string :=
  default [] (Open h file).

Definition discovered_lines (h : Host) : list string :=
  match Executable h with
  | None => []
  | Some exePath =>
    match GlobEnv h exePath with
    | None => []
    | Some files => concat (file_lines h <$> files)
    end
  end.

(** The last value given to [k] in a list of pairs. *)
Definition last_binding (k : string) (pairs : list (string * string))
    : option string :=
  snd <$> last (filter (fun p => p.1 = k) pairs).

(** The state in which [init] runs: [envMap] was just made. *)
Definition boot (env : gmap string string) (h : Host) : World :=
  {| environ := env; envMap := ∅; host := h |}.

(** *** Collections *)

(** An entry of the map form cut in two, when it can be. *)
Definition entry_pair (kvDelimiter entry : string) : option (string * string) :=
  match strings.SplitN entry kvDelimiter 2 with
  | [k; v] => Some (strings.TrimSpace k, strings.TrimSpace v)
  | _ => None
  end.

(** What a parse yields when it succeeds. *)
Definition good {T} (r : parsed T) : option T :=
  match r with
  | inr v => Some v
  | inl _ => None
  end.

Definition assign (m : gmap string string) (p : string * string)
    : gmap string string := <[p.1 := p.2]> m.

(** The pieces put back together with [sep] between them
    ([strings.Join]). *)
Fixpoint Join (a : list string) (sep : string) : string :=
  match a with
  | [] => ""
  | [x] => x
  | x :: a' => x +:+ sep +:+ Join a' sep
  end.

(** *** Boolean spellings *)

Definition lower_ascii (c : ascii) : ascii :=
  let b := byte_of c in
  if utf8.between 65 90 b then ascii_of_N (Z.to_N (b + 32)) else c.

Fixpoint to_lower (s : string) : string :=
  match s with
  | "" => ""
  | String c s' => String (lower_ascii c) (to_lower s')
  end.

(** The six spellings of the specification and what they stand for. *)
Definition spelling (s : string) : option bool :=
  match s with
  | "true" | "1" | "t" => Some true
  | "false" | "0" | "f" => Some false
  | _ => None
  end.

(** The twelve strings [strconv.ParseBool] knows. *)
Definition true_spellings : list string :=
  ["1"; "t"; "T"; "true"; "TRUE"; "True"].
Definition false_spellings : list string :=
  ["0"; "f"; "F"; "false"; "FALSE"; "False"].

(** *** Sequences of library operations *)
Inductive operation :=
| OpInit
| OpCall (c : call).

Definition exec (op : operation) (w : World) : World :=
  match op with
  | OpInit => after init w
  | OpCall c => after (run c) w
  end.

Definition exec_all (ops : list operation) (w : World) : World :=
  foldl (fun w op => exec op w) w ops.

(** *** Two readings the code does not follow

    The array-of-string accessor read as trimming each piece, and the
    boolean accessor read as accepting every casing of the six
    spellings. *)
Definition ArrayString_trims : Prop :=
  forall w key split d val,
    result (GetEnvString key "") w = Return val -> val <> "" ->
    result (GetEnvArrayString key split d) w
    = Return (strings.TrimSpace <$> strings.Split val split).

Definition Bool_any_casing : Prop :=
  forall w key d val b,
    result (GetEnvString key "") w = Return val ->
    spelling (to_lower val) = Some b ->
    result (GetEnvBool key d) w = Return b.

(** *** Further vocabulary *)

(** The two layers as one map: the process environment over the overlay,
    and no overlay. *)
Definition merged (w : World) : World :=
  {| environ := environ w ∪ envMap w; envMap := ∅; host := host w |}.

(** [s] cut around the first occurrence of [sep]. *)
Definition cut_at (sep s : string) : option (string * string) :=
  match strings.Index s sep with
  | Some m => Some (slice_to m s, slice_from (m + String.length sep) s)
  | None => None
  end.

(** The value of a Go [int]. *)
Definition in_int_range (n : Z) : Prop := - 2 ^ 63 <= n < 2 ^ 63.

(** A call made to the earlier revision; the map form is not in it. *)
Definition run_earlier (c : call) : option (M value) :=
  match c with
  | CallString key d => Some (fmap_M VString (Earlier.GetEnvString key d))
  | CallArrayString key split d =>
    Some (fmap_M VArrayString (Earlier.GetEnvArrayString key split d))
  | CallInt key d => Some (fmap_M VInt (Earlier.GetEnvInt Error key d))
  | CallDuration key d =>
    Some (fmap_M VDuration (Earlier.GetEnvDuration Error ParseDuration key d))
  | CallBool key d => Some (fmap_M VBool (Earlier.GetEnvBool Error key d))
  | CallFloat64 key d =>
    Some (fmap_M VFloat64 (Earlier.GetEnvFloat64 Error float64 ParseFloat key d))
  | CallArrayInt key split d =>
    Some (fmap_M VArrayInt (Earlier.GetEnvArrayInt key split d))
  | CallArrayDuration key split d =>
    Some (fmap_M VArrayDuration
            (Earlier.GetEnvArrayDuration ParseDuration key split d))
  | CallMapStringString _ _ _ _ => None
  end.

(** *** The test of the map form

    [TestGetEnvMapStringString], as the flag [t.Failed()] it leaves:
    [t.Errorf] marks the test as failed and the test goes on.  The loop
    over [want] reports every key whose value differs, so the flag does
    not depend on the order in which Go visits the map.  Reading a key a
    map does not have gives the empty string. *)
Definition map_index (m : gmap string string) (k : string) : string :=
  default "" (m !! k).

Definition TestGetEnvMapStringString : M bool :=
  _ <- os_Setenv "TEST_MAP" "key1:val1,key2:val2,key3:val3" ;;
  with_defer (os_Unsetenv "TEST_MAP")
    (got <- GetEnvMapStringString "TEST_MAP" "," ":" ∅ ;;
     let want : gmap string string :=
       {[ "key1" := "val1"; "key2" := "val2"; "key3" := "val3" ]} in
     failed <-
       for_range (map_to_list want)
         (fun failed '(k, v) =>
            if bool_decide (map_index got k <> v) then ret true
            else ret failed)
         false ;;
     (* Test default return *)
     _ <- os_Unsetenv "TEST_MAP" ;;
     let def : gmap string string := {[ "default" := "value" ]} in
     gotDef <- GetEnvMapStringString "TEST_MAP" "," ":" def ;;
     if bool_decide (map_index gotDef "default" <> "value") then ret true
     else ret failed).

(** *** What an accessor makes of a resolved value

    The conversions of the accessor table, as functions of the resolved
    string alone.  [collect step l] is what a pass over [l] gathers: every
    result, or the first element that yields none. *)
Fixpoint collect {A P} (step : A -> option P) (l : list A) : A + list P :=
  match l with
  | [] => inr []
  | x :: l' =>
    match step x with
    | None => inl x
    | Some p =>
      match collect step l' with
      | inl bad => inl bad
      | inr ps => inr (p :: ps)
      end
    end
  end.

Definition converted_scalar {T} (parse : string -> parsed T)
    (key what : string) (V : T -> value) (v : string) : outcome value :=
  match parse v with
  | inl err => Panic ("Environment variable " +:+ key +:+ what +:+ Error err)
  | inr x => Return (V x)
  end.

Definition converted_array {T} (parse : string -> parsed T)
    (key what : string) (V : list T -> value) (pieces : list string)
    : outcome value :=
  match collect (fun s => good (parse s)) pieces with
  | inl bad => Panic ("Environment variable " +:+ key +:+ what +:+ bad)
  | inr xs => Return (V xs)
  end.

(** The conversion of a typed accessor, on a string that is not empty. *)
Definition typed_conversion (c : call) (v : string) : outcome value :=
  match c with
  | CallString _ _ => Return (VString v)
  | CallArrayString _ split _ => Return (VArrayString (strings.Split v split))
  | CallInt key _ =>
    converted_scalar (fun s => lift_num (strconv.Atoi s)) key
      " is not a valid integer: " VInt v
  | CallDuration key _ =>
    converted_scalar ParseDuration key " is not a valid duration: " VDuration v
  | CallBool key _ =>
    converted_scalar (fun s => lift_num (strconv.ParseBool s)) key
      " is not a valid boolean: " VBool v
  | CallFloat64 key _ =>
    converted_scalar ParseFloat key " is not a valid float64: " VFloat64 v
  | CallArrayInt key split _ =>
    converted_array (fun s => lift_num (strconv.Atoi s)) key
      " array contains an invalid integer: " VArrayInt (strings.Split v split)
  | CallArrayDuration key split _ =>
    converted_array ParseDuration key
      " array contains an invalid duration: " VArrayDuration
      (strings.Split v split)
  | CallMapStringString key ed kd _ =>
    match collect (entry_pair kd) (strings.Split v ed) with
    | inl bad =>
      Panic ("Environment variable " +:+ key
               +:+ " contains invalid map entry: " +:+ bad)
    | inr ps => Return (VMapStringString (foldl assign ∅ ps))
    end
  end.

(** What the accessor of call [c] makes of the resolved value [v]: the
    plain string accessor returns it; a typed accessor returns its default
    on the empty string and converts any other. *)
Definition converted (c : call) (v : string) : outcome value :=
  if is_plain_string c then Return (VString v)
  else if bool_decide (v = "") then Return (call_default c)
  else typed_conversion c v.

(** *** Decimal numerals

    The integer a string denotes when it is an optional sign followed by
    one or more decimal digits, whatever its size. *)
Fixpoint digits_value (s : string) (acc : Z) : option Z :=
  match s with
  | "" => Some acc
  | String c s' =>
    match strconv.digit c with
    | Some d => digits_value s' (acc * 10 + d)
    | None => None
    end
  end.

Definition unsigned_value (s : string) : option Z :=
  match s with
  | "" => None
  | _ => digits_value s 0
  end.

Definition numeral_value (s : string) : option Z :=
  match s with
  | "" => None
  | String c s' =>
    if bool_decide (c = "-"%char) then Z.opp <$> unsigned_value s'
    else if bool_decide (c = "+"%char) then unsigned_value s'
    else unsigned_value s
  end.

(** ** Running programs *)

Lemma GetEnvString_run key d w :
  GetEnvString key d w = (Return (default d (effective w key)), w).
Proof.
  unfold GetEnvString, bind, os_LookupEnv, envMap_load, ret, effective.
  destruct (environ w !! key); [done|].
  by destruct (envMap w !! key).
Qed.

Lemma bind_raw_run {A} key (k : string -> M A) w :
  bind (GetEnvString key "") k w = k (raw w key) w.
Proof. unfold bind. by rewrite GetEnvString_run. Qed.

Lemma pure_ret {A} (a : A) : pure (ret a).
Proof. by exists (Return a). Qed.

Lemma pure_panic {A} msg : pure (@panic A msg).
Proof. by exists (Panic msg). Qed.

Lemma pure_bind {A B} (m : M A) (f : A -> M B) :
  pure m -> (forall a, pure (f a)) -> pure (bind m f).
Proof.
  intros [o Ho] Hf. destruct o as [a|msg].
  - destruct (Hf a) as [o' Ho']. exists o'. intros w.
    unfold bind. by rewrite Ho, Ho'.
  - exists (Panic msg). intros w. unfold bind. by rewrite Ho.
Qed.

Lemma pure_for_range {A S} (l : list A) (body : S -> A -> M S) acc :
  (forall acc x, pure (body acc x)) -> pure (for_range l body acc).
Proof.
  intros Hb. revert acc.
  induction l as [|x l IH]; intros acc; simpl.
  - apply pure_ret.
  - apply pure_bind; [apply Hb | apply IH].
Qed.

Lemma pure_fmap {A B} (f : A -> B) (m : M A) : pure m -> pure (fmap_M f m).
Proof. intros H. apply pure_bind; [done | intros; apply pure_ret]. Qed.

Lemma pure_readonly {A} (m : M A) : pure m -> readonly m.
Proof. intros [o Ho] w. unfold after. by rewrite Ho. Qed.

Lemma pure_result {A} (m : M A) w w' : pure m -> result m w = result m w'.
Proof. intros [o Ho]. unfold result. by rewrite !Ho. Qed.

(** Purity of a program built from [ret], [panic], [bind], [for_range]
    and case distinctions on values. *)
Ltac solve_pure :=
  repeat first
    [ apply pure_ret
    | apply pure_panic
    | apply pure_fmap
    | apply pure_for_range; intros
    | apply pure_bind; [|intros]
    | match goal with
      | |- pure (match ?x with _ => _ end) => destruct x
      end ].

Lemma typed_readonly {A} key (k : string -> M A) :
  (forall val, pure (k val)) -> readonly (bind (GetEnvString key "") k).
Proof.
  intros Hk w. unfold after. rewrite bind_raw_run.
  apply (pure_readonly _ (Hk _)).
Qed.

Lemma typed_effective {A} key (k : string -> M A) w w' :
  (forall val, pure (k val)) ->
  effective w key = effective w' key ->
  result (bind (GetEnvString key "") k) w
  = result (bind (GetEnvString key "") k) w'.
Proof.
  intros Hk He. unfold result. rewrite !bind_raw_run.
  unfold raw. rewrite He. apply (pure_result _ _ _ (Hk _)).
Qed.

Lemma fmap_readonly {A B} (f : A -> B) (m : M A) :
  readonly m -> readonly (fmap_M f m).
Proof.
  intros H w. specialize (H w). unfold after, fmap_M, bind, ret in *.
  by destruct (m w) as [[a|msg] w1].
Qed.

Lemma fmap_result {A B} (f : A -> B) (m : M A) w w' :
  result m w = result m w' -> result (fmap_M f m) w = result (fmap_M f m) w'.
Proof.
  unfold result, fmap_M, bind, ret.
  destruct (m w) as [[a|msg] w1], (m w') as [[a'|msg'] w1']; simpl; congruence.
Qed.

(** Every accessor but the plain string one is [GetEnvString key ""]
    followed by a conversion that does not touch the state. *)
Lemma GetEnvString_readonly key d : readonly (GetEnvString key d).
Proof. intros w. unfold after. by rewrite GetEnvString_run. Qed.

Lemma GetEnvString_effective key d w w' :
  effective w key = effective w' key ->
  result (GetEnvString key d) w = result (GetEnvString key d) w'.
Proof. intros He. unfold result. rewrite !GetEnvString_run. simpl. by rewrite He. Qed.

Ltac unfold_accessors :=
  unfold run, GetEnvArrayString, GetEnvInt, GetEnvDuration, GetEnvBool,
    GetEnvFloat64, GetEnvArrayInt, GetEnvArrayDuration, GetEnvMapStringString,
    GetEnvArrayInt_body, GetEnvArrayDuration_body, GetEnvMapStringString_body.

Lemma run_readonly c : readonly (run c).
Proof.
  destruct c; unfold_accessors; apply fmap_readonly;
    first [ apply GetEnvString_readonly
          | apply typed_readonly; intros; solve_pure ].
Qed.

Lemma run_effective c w w' :
  effective w (call_key c) = effective w' (call_key c) ->
  result (run c) w = result (run c) w'.
Proof.
  intros He. destruct c; unfold_accessors; simpl in He; apply fmap_result;
    first [ by apply GetEnvString_effective
          | apply typed_effective; [intros; solve_pure | done] ].
Qed.

(** With an empty resolved value, a typed accessor is at its default. *)
Lemma run_empty c w :
  is_plain_string c = false -> raw w (call_key c) = "" ->
  run c w = (Return (call_default c), w).
Proof.
  intros Hc Hraw. destruct c; try discriminate Hc; simpl in Hraw;
    unfold_accessors; unfold fmap_M; unfold bind at 1;
    rewrite bind_raw_run, Hraw; by case_bool_decide.
Qed.

Lemma effective_None w key :
  environ w !! key = None -> envMap w !! key = None -> effective w key = None.
Proof. unfold effective. by intros -> ->. Qed.

Lemma effective_environ w key v :
  environ w !! key = Some v -> effective w key = Some v.
Proof. unfold effective. by intros ->. Qed.

Lemma run_unset c w :
  effective w (call_key c) = None -> run c w = (Return (call_default c), w).
Proof.
  intros He. destruct (is_plain_string c) eqn:Hc.
  - destruct c; try discriminate Hc. simpl in He.
    unfold run, fmap_M, bind. by rewrite GetEnvString_run, He.
  - apply run_empty; [done|]. unfold raw. by rewrite He.
Qed.

(** ** Resolution *)

(** The loops of the collection accessors, as one pass of [collect]. *)
Lemma for_range_parse {T} (parse : string -> parsed T) (mk : string -> string)
    (l : list string) (acc : list T) (w : World) :
  for_range l
    (fun acc str =>
       match parse str with
       | inl _ => panic (mk str)
       | inr v => ret (acc ++ [v])
       end) acc w
  = (match collect (fun s => good (parse s)) l with
     | inl bad => Panic (mk bad)
     | inr vs => Return (acc ++ vs)
     end, w).
Proof.
  revert acc. induction l as [|s l IH]; intros acc.
  - cbn. unfold ret. by rewrite app_nil_r.
  - cbn [for_range collect]. unfold bind.
    destruct (parse s) as [e|v]; cbn [good]; [done|].
    unfold ret at 1. rewrite IH.
    destruct (collect _ l) as [bad|vs]; [done|].
    by rewrite <- app_assoc.
Qed.

Lemma for_range_entries key kd (l : list string) (acc : gmap string string)
    (w : World) :
  for_range l (GetEnvMapStringString_body key kd) acc w
  = (match collect (entry_pair kd) l with
     | inl bad =>
       Panic ("Environment variable " +:+ key
                +:+ " contains invalid map entry: " +:+ bad)
     | inr ps => Return (foldl assign acc ps)
     end, w).
Proof.
  revert acc. induction l as [|e l IH]; intros acc; [done|].
  cbn [for_range collect]. unfold bind.
  unfold GetEnvMapStringString_body at 1, entry_pair at 1.
  destruct (strings.SplitN e kd 2) as [|k [|v [|x r]]]; try done.
  unfold ret at 1. rewrite IH. by destruct (collect _ l).
Qed.

Lemma raw_effective w key v : effective w key = Some v -> raw w key = v.
Proof. unfold raw. by intros ->. Qed.

(** An accessor returns what it makes of the value its key resolves to. *)
Lemma run_converted c w :
  run c w
  = (match effective w (call_key c) with
     | Some v => converted c v
     | None => Return (call_default c)
     end, w).
Proof.
  destruct (effective w (call_key c)) as [v|] eqn:He; [|by apply run_unset].
  unfold converted. destruct (is_plain_string c) eqn:Hc.
  { destruct c; try discriminate Hc. cbn [call_key] in He.
    unfold run, fmap_M, bind. by rewrite GetEnvString_run, He. }
  case_bool_decide as Hv.
  { apply run_empty; [done|]. subst v. by apply raw_effective. }
  apply raw_effective in He.
  destruct c; try discriminate Hc; cbn [call_key] in He;
    unfold run, GetEnvArrayString, GetEnvInt, GetEnvDuration, GetEnvBool,
      GetEnvFloat64, GetEnvArrayInt, GetEnvArrayDuration,
      GetEnvMapStringString, GetEnvArrayInt_body, GetEnvArrayDuration_body;
    unfold fmap_M; unfold bind at 1;
    rewrite bind_raw_run, He; rewrite bool_decide_true by done;
    cbn [typed_conversion]; unfold converted_scalar, converted_array.
  - done.
  - by destruct (strconv.Atoi v).
  - by destruct (ParseDuration v).
  - by destruct (strconv.ParseBool v).
  - by destruct (ParseFloat v).
  - rewrite (for_range_parse (fun s => lift_num (strconv.Atoi s))).
    by destruct (collect _ _).
  - rewrite (for_range_parse ParseDuration). by destruct (collect _ _).
  - rewrite for_range_entries. by destruct (collect _ _).
Qed.


(** C1: a key resolves to its process-environment value when it has one,
    else to its overlay value when the overlay holds it, else to the
    caller's default, and every accessor returns what it makes of that
    value: the plain string accessor the value itself, a typed accessor
    its conversion of the value (its default when the value is empty).
    In particular, with the key in both sources it is the
    process-environment value that is converted, and the overlay plays no
    part; with the key in neither source every accessor returns its
    default unchanged. *)
Theorem resolution_order (c : call) (w : World) :
  result (run c) w
  = match environ w !! call_key c with
    | Some v => converted c v
    | None => match envMap w !! call_key c with
              | Some v => converted c v
              | None => Return (call_default c)
              end
    end
  /\ (forall v o,
        environ w !! call_key c = Some v -> envMap w !! call_key c = Some o ->
        result (run c) w = converted c v)
  /\ (forall key d,
        result (GetEnvString key d) w
        = Return match environ w !! key with
                 | Some v => v
                 | None => match envMap w !! key with
                           | Some v => v
                           | None => d
                           end
                 end)
  /\ (forall w',
        effective w (call_key c) = effective w' (call_key c) ->
        result (run c) w = result (run c) w')
  /\ (forall v m,
        environ w !! call_key c = Some v ->
        result (run c) (with_envMap m w) = result (run c) w)
  /\ (environ w !! call_key c = None -> envMap w !! call_key c = None ->
      result (run c) w = Return (call_default c)).
Proof.
  split_and!.
  - unfold result. rewrite run_converted. cbn [fst]. unfold effective.
    by destruct (environ w !! call_key c).
  - intros v o Hv _. unfold result.
    by rewrite run_converted, (effective_environ _ _ _ Hv).
  - intros key d. unfold result. rewrite GetEnvString_run. unfold effective.
    simpl. destruct (environ w !! key); [done|].
    by destruct (envMap w !! key).
  - apply run_effective.
  - intros v m Hv. apply run_effective.
    rewrite (effective_environ w _ v Hv).
    by apply effective_environ.
  - intros He Hm. unfold result.
    by rewrite run_unset by by apply effective_None.
Qed.

(** C2: for every accessor other than the plain string one, when the
    value resolved by [GetEnvString key ""] is the empty string the
    accessor returns the caller's default; nothing is parsed. *)
Theorem empty_value_gives_default (c : call) (w : World) :
  is_plain_string c = false ->
  result (GetEnvString (call_key c) "") w = Return "" ->
  result (run c) w = Return (call_default c).
Proof.
  intros Hc Hraw. unfold result in *.
  rewrite GetEnvString_run in Hraw. simpl in Hraw.
  rewrite run_empty; [done..|]. unfold raw. congruence.
Qed.

(** C10: a key set to the empty string in the process environment hides
    the overlay: the plain string accessor returns the empty string, every
    other accessor its default, whatever the overlay holds for the key. *)
Theorem empty_environ_shadows_overlay (c : call) (w : World) :
  environ w !! call_key c = Some "" ->
  result (run c) w
  = Return (if is_plain_string c then VString "" else call_default c).
Proof.
  intros He. pose proof (effective_environ _ _ _ He) as Heff.
  unfold result. destruct (is_plain_string c) eqn:Hc.
  - destruct c; try discriminate Hc. simpl in Heff.
    unfold run, fmap_M, bind. by rewrite GetEnvString_run, Heff.
  - rewrite run_empty; [done..|]. unfold raw. by rewrite Heff.
Qed.

(** ** Conversions *)

Lemma Contains_middle pre sub post : Contains (pre +:+ sub +:+ post) sub.
Proof. by exists pre, post. Qed.

Lemma Contains_end pre sub : Contains (pre +:+ sub) sub.
Proof.
  exists pre, "". f_equal. induction sub as [|a sub IH]; [done|].
  change (String a sub = String a (sub +:+ "")). by rewrite <- IH.
Qed.

Lemma str_app_assoc (a b c : string) : a +:+ b +:+ c = (a +:+ b) +:+ c.
Proof.
  induction a as [|x a IH]; [done|].
  change (String x (a +:+ b +:+ c) = String x ((a +:+ b) +:+ c)).
  by rewrite IH.
Qed.

Lemma raw_of_result w key val :
  result (GetEnvString key "") w = Return val -> raw w key = val.
Proof. unfold result. rewrite GetEnvString_run. simpl. unfold raw. congruence. Qed.

(** A scalar accessor on a non-empty resolved value: the parse decides. *)
Lemma scalar_run {T} (parse : string -> parsed T) (what : string) key d w val :
  raw w key = val -> val <> "" ->
  result
    (bind (GetEnvString key "") (fun val =>
       if bool_decide (val <> "") then
         match parse val with
         | inl err =>
           panic ("Environment variable " +:+ key +:+ what +:+ Error err)
         | inr v => ret v
         end
       else ret d)) w
  = match parse val with
    | inl err =>
      Panic ("Environment variable " +:+ key +:+ what +:+ Error err)
    | inr v => Return v
    end.
Proof.
  intros Hraw Hne. unfold result. rewrite bind_raw_run, Hraw.
  case_bool_decide; [|done]. by destruct (parse val).
Qed.

(** C4: for the Boolean, Integer, Float and Duration accessors, on a
    non-empty resolved value: when the value fails the parse of the type
    the call panics with a message that contains the key; when it parses
    the accessor returns the parsed value. *)
Theorem scalar_parse_or_panic (w : World) (key val : string) :
  result (GetEnvString key "") w = Return val -> val <> "" ->
  (forall d,
      match strconv.ParseBool val with
      | inr b => result (GetEnvBool key d) w = Return b
      | inl _ =>
        exists msg, result (GetEnvBool key d) w = Panic msg /\ Contains msg key
      end)
  /\ (forall d,
        match strconv.Atoi val with
        | inr n => result (GetEnvInt key d) w = Return n
        | inl _ =>
          exists msg, result (GetEnvInt key d) w = Panic msg /\ Contains msg key
        end)
  /\ (forall d,
        match ParseFloat val with
        | inr f => result (GetEnvFloat64 key d) w = Return f
        | inl _ =>
          exists msg,
            result (GetEnvFloat64 key d) w = Panic msg /\ Contains msg key
        end)
  /\ (forall d,
        match ParseDuration val with
        | inr t => result (GetEnvDuration key d) w = Return t
        | inl _ =>
          exists msg,
            result (GetEnvDuration key d) w = Panic msg /\ Contains msg key
        end).
Proof.
  intros Hres Hne. apply raw_of_result in Hres.
  repeat split; intros d.
  - unfold GetEnvBool. rewrite (scalar_run _ _ _ _ _ val) by done.
    destruct (strconv.ParseBool val); simpl; [|done].
    eexists; split; [done|]. apply Contains_middle.
  - unfold GetEnvInt. rewrite (scalar_run _ _ _ _ _ val) by done.
    destruct (strconv.Atoi val); simpl; [|done].
    eexists; split; [done|]. apply Contains_middle.
  - unfold GetEnvFloat64. rewrite (scalar_run _ _ _ _ _ val) by done.
    destruct (ParseFloat val); [|done].
    eexists; split; [done|]. apply Contains_middle.
  - unfold GetEnvDuration. rewrite (scalar_run _ _ _ _ _ val) by done.
    destruct (ParseDuration val); [|done].
    eexists; split; [done|]. apply Contains_middle.
Qed.

(** ** Collections *)

Lemma for_range_ext {A S} (l : list A) (body body' : S -> A -> M S) acc w :
  (forall acc x w, body acc x w = body' acc x w) ->
  for_range l body acc w = for_range l body' acc w.
Proof.
  intros Hb. revert acc w.
  induction l as [|x l IH]; intros acc w; simpl; [done|].
  unfold bind. rewrite Hb. destruct (body' acc x w) as [[a|msg] w']; [apply IH|done].
Qed.

(** A loop whose body either extends the accumulator with what it got
    from the element or panics: it returns the accumulator extended with
    every element, or panics at the first element that yields nothing. *)
Lemma for_range_fold {A S P} (step : A -> option P) (upd : S -> P -> S)
    (mk : A -> string) (l : list A) (acc : S) (w : World) :
  let body := fun acc x =>
    match step x with
    | Some p => ret (upd acc p)
    | None => panic (mk x)
    end in
  (exists ps,
      Forall2 (fun x p => step x = Some p) l ps
      /\ for_range l body acc w = (Return (foldl upd acc ps), w))
  \/ (exists pre bad post,
        l = pre ++ bad :: post
        /\ Forall (fun x => is_Some (step x)) pre
        /\ step bad = None
        /\ for_range l body acc w = (Panic (mk bad), w)).
Proof.
  intros body. revert acc.
  induction l as [|x l IH]; intros acc.
  - left. exists []. split; [constructor|done].
  - assert (Hstep : for_range (x :: l) body acc w
                     = match step x with
                       | Some p => for_range l body (upd acc p) w
                       | None => (Panic (mk x), w)
                       end).
    { simpl. unfold bind, body at 1. by destruct (step x). }
    rewrite Hstep. clear Hstep.
    destruct (step x) as [p|] eqn:Hx.
    + destruct (IH (upd acc p))
        as [(ps & Hps & Hrun)|(pre & bad & post & -> & Hpre & Hbad & Hrun)].
      * left. exists (p :: ps). split; [by constructor|done].
      * right. exists (x :: pre), bad, post.
        split; [done|]. split; [|done].
        constructor; [by rewrite Hx|done].
    + right. exists [], x, l. split; [done|]. split; [constructor|done].
Qed.

Lemma foldl_snoc {T} (acc vs : list T) :
  foldl (fun a v => a ++ [v]) acc vs = acc ++ vs.
Proof.
  revert acc. induction vs as [|v vs IH]; intros acc; simpl.
  - by rewrite app_nil_r.
  - by rewrite IH, <- app_assoc.
Qed.

(** The array accessors over any element parser. *)
Lemma array_run {T} (parse : string -> parsed T) (what : string)
    key split d w val :
  raw w key = val -> val <> "" ->
  let parts := strings.Split val split in
  let m :=
    bind (GetEnvString key "") (fun val =>
      if bool_decide (val <> "") then
        for_range (strings.Split val split)
          (fun acc str =>
             match parse str with
             | inl _ => panic ("Environment variable " +:+ key +:+ what +:+ str)
             | inr v => ret (acc ++ [v])
             end) []
      else ret d) in
  (exists vs,
      Forall2 (fun s v => parse s = inr v) parts vs /\ result m w = Return vs)
  \/ (exists pre bad post msg,
        parts = pre ++ bad :: post
        /\ Forall (fun s => exists v, parse s = inr v) pre
        /\ (exists e, parse bad = inl e)
        /\ result m w = Panic msg
        /\ Contains msg bad).
Proof.
  intros Hraw Hne parts m. unfold result, m.
  rewrite bind_raw_run, Hraw. case_bool_decide; [|done]. fold parts.
  rewrite (for_range_ext _ _
             (fun acc str =>
                match good (parse str) with
                | Some v => ret (acc ++ [v])
                | None =>
                  panic ("Environment variable " +:+ key +:+ what +:+ str)
                end))
    by (intros acc x w0; by destruct (parse x)).
  destruct (for_range_fold (fun s => good (parse s)) (fun a v => a ++ [v])
              (fun str => "Environment variable " +:+ key +:+ what +:+ str)
              parts [] w)
    as [(vs & Hvs & Hrun)|(pre & bad & post & Hparts & Hpre & Hbad & Hrun)].
  - left. exists vs. rewrite Hrun, foldl_snoc. split; [|done].
    eapply Forall2_impl; [apply Hvs|]. intros s v. simpl.
    by destruct (parse s); intros [=->].
  - right. exists pre, bad, post. eexists. rewrite Hrun.
    split_and!; [done| | |done|].
    + eapply Forall_impl; [apply Hpre|]. intros s [v Hv]. simpl in Hv.
      destruct (parse s); [done|]. by eexists.
    + simpl in Hbad. destruct (parse bad); [by eexists|done].
    + rewrite !str_app_assoc. apply Contains_end.
Qed.

Lemma entry_pair_None kd entry :
  entry_pair kd entry = None <-> length (strings.SplitN entry kd 2) <> 2%nat.
Proof.
  unfold entry_pair.
  destruct (strings.SplitN entry kd 2) as [|k [|v [|x l]]]; simpl; split;
    first [done | lia | by intros [] ].
Qed.

Lemma entry_pair_Some kd entry :
  is_Some (entry_pair kd entry) <-> length (strings.SplitN entry kd 2) = 2%nat.
Proof.
  unfold entry_pair.
  destruct (strings.SplitN entry kd 2) as [|k [|v [|x l]]]; simpl; split;
    first [done | lia | by intros [] | by eexists ].
Qed.

(** C5: for the Array-of-Integer, Array-of-Duration and Map accessors on a
    non-empty resolved value: either every piece of the split parses
    (every entry cuts in exactly two at the key/value delimiter) and the
    whole collection is returned, or the call panics at the first piece
    that does not, with a message that contains that piece.  There is no
    third outcome: no part of a collection is returned. *)
Theorem collections_all_or_panic (w : World) (key val : string) :
  result (GetEnvString key "") w = Return val -> val <> "" ->
  (forall split d,
      let parts := strings.Split val split in
      (exists ns,
          Forall2 (fun s n => strconv.Atoi s = inr n) parts ns
          /\ result (GetEnvArrayInt key split d) w = Return ns)
      \/ (exists pre bad post msg,
            parts = pre ++ bad :: post
            /\ Forall (fun s => exists n, strconv.Atoi s = inr n) pre
            /\ (exists e, strconv.Atoi bad = inl e)
            /\ result (GetEnvArrayInt key split d) w = Panic msg
            /\ Contains msg bad))
  /\ (forall split d,
        let parts := strings.Split val split in
        (exists ts,
            Forall2 (fun s t => ParseDuration s = inr t) parts ts
            /\ result (GetEnvArrayDuration key split d) w = Return ts)
        \/ (exists pre bad post msg,
              parts = pre ++ bad :: post
              /\ Forall (fun s => exists t, ParseDuration s = inr t) pre
              /\ (exists e, ParseDuration bad = inl e)
              /\ result (GetEnvArrayDuration key split d) w = Panic msg
              /\ Contains msg bad))
  /\ (forall entryDelimiter kvDelimiter d,
        let entries := strings.Split val entryDelimiter in
        (exists ps,
            Forall2 (fun e p => entry_pair kvDelimiter e = Some p) entries ps
            /\ result (GetEnvMapStringString key entryDelimiter kvDelimiter d) w
               = Return (foldl assign ∅ ps))
        \/ (exists pre bad post msg,
              entries = pre ++ bad :: post
              /\ Forall (fun e =>
                           length (strings.SplitN e kvDelimiter 2) = 2%nat) pre
              /\ length (strings.SplitN bad kvDelimiter 2) <> 2%nat
              /\ result (GetEnvMapStringString key entryDelimiter kvDelimiter d) w
                 = Panic msg
              /\ Contains msg bad)).
Proof.
  intros Hres Hne. apply raw_of_result in Hres.
  split; [|split].
  - intros split d parts.
    destruct (array_run (fun s => lift_num (strconv.Atoi s))
                " array contains an invalid integer: " key split d w val Hres Hne)
      as [(ns & Hns & Hrun)|(pre & bad & post & msg & Hp & Hpre & [e Hbad] & Hrun & Hc)].
    + left. exists ns. split; [|exact Hrun].
      eapply Forall2_impl; [apply Hns|]. intros s n. simpl.
      by destruct (strconv.Atoi s); intros [=->].
    + right. exists pre, bad, post, msg. split_and!; [done| | |exact Hrun|done].
      * eapply Forall_impl; [apply Hpre|]. intros s [n Hn]. simpl in Hn.
        destruct (strconv.Atoi s); [done|]. injection Hn as ->. by eexists.
      * simpl in Hbad. destruct (strconv.Atoi bad); [by eexists|done].
  - intros split d parts.
    apply (array_run ParseDuration " array contains an invalid duration: "
             key split d w val Hres Hne).
  - intros ed kd d entries.
    unfold result, GetEnvMapStringString. rewrite bind_raw_run, Hres.
    case_bool_decide; [|done]. fold entries.
    rewrite (for_range_ext _ _
               (fun acc entry =>
                  match entry_pair kd entry with
                  | Some p => ret (assign acc p)
                  | None =>
                    panic ("Environment variable " +:+ key
                             +:+ " contains invalid map entry: " +:+ entry)
                  end)).
    2:{ intros acc x w0. unfold GetEnvMapStringString_body, entry_pair.
        by destruct (strings.SplitN x kd 2) as [|k [|v [|y l]]]. }
    destruct (for_range_fold (entry_pair kd) assign
                (fun entry => "Environment variable " +:+ key
                              +:+ " contains invalid map entry: " +:+ entry)
                entries ∅ w)
      as [(ps & Hps & Hrun)|(pre & bad & post & Hp & Hpre & Hbad & Hrun)].
    + left. exists ps. by rewrite Hrun.
    + right. exists pre, bad, post. eexists. rewrite Hrun.
      split_and!; [done| | |done|].
      * eapply Forall_impl; [apply Hpre|]. intros e. apply entry_pair_Some.
      * by apply entry_pair_None.
      * rewrite !str_app_assoc. apply Contains_end.
Qed.

(** ** Splitting *)

Lemma slice_to_from n s : slice_to n s +:+ slice_from n s = s.
Proof.
  revert n. induction s as [|a s IH]; intros [|n]; try done.
  cbn [slice_to slice_from].
  change (String a (slice_to n s +:+ slice_from n s) = String a s).
  by rewrite IH.
Qed.

Lemma slice_from_add a b s : slice_from (a + b) s = slice_from b (slice_from a s).
Proof.
  revert s. induction a as [|a IH]; intros s; [done|].
  destruct s as [|c s]; cbn [Nat.add slice_from]; [by destruct b|apply IH].
Qed.

Lemma slice_from_length n s :
  String.length (slice_from n s) = (String.length s - n)%nat.
Proof.
  revert s. induction n as [|n IH]; intros [|c s]; cbn; by try apply IH.
Qed.

Lemma prefix_split p s :
  String.prefix p s = true -> p +:+ slice_from (String.length p) s = s.
Proof.
  revert s. induction p as [|a p IH]; intros s Hp; [done|].
  destruct s as [|b s]; [done|]. cbn in Hp.
  destruct (ascii_dec a b) as [->|]; [|done].
  cbn [String.length slice_from].
  change (String b (p +:+ slice_from (String.length p) s) = String b s).
  by rewrite IH.
Qed.

Lemma prefix_length p s :
  String.prefix p s = true -> (String.length p <= String.length s)%nat.
Proof.
  revert s. induction p as [|a p IH]; intros [|b s]; cbn; try done; try lia.
  destruct (ascii_dec a b); [|done]. intros Hp. apply IH in Hp. lia.
Qed.

Lemma prefix_slice_to p n s :
  String.prefix p (slice_to n s) = true -> String.prefix p s = true.
Proof.
  revert n s. induction p as [|a p IH]; intros n s Hp; [by destruct s|].
  destruct n as [|n], s as [|b s]; try done.
  cbn in *. destruct (ascii_dec a b); [|done]. by eapply IH.
Qed.

(** [Index] finds an occurrence, and the first one. *)
Lemma Index_Some s sep m :
  strings.Index s sep = Some m ->
  String.prefix sep (slice_from m s) = true /\ (m <= String.length s)%nat.
Proof.
  revert m. induction s as [|a s IH]; intros m; cbn [strings.Index].
  - destruct (String.prefix sep "") eqn:Hp; [|done]. intros [= <-].
    cbn. split; [done|lia].
  - destruct (String.prefix sep (String a s)) eqn:Hp.
    + intros [= <-]. cbn. split; [done|lia].
    + destruct (strings.Index s sep) as [m'|]; [|done].
      intros [= <-]. destruct (IH m' eq_refl) as [H1 H2].
      cbn. split; [done|lia].
Qed.

Lemma Index_first s sep m :
  sep <> "" -> strings.Index s sep = Some m ->
  strings.Index (slice_to m s) sep = None.
Proof.
  intros Hsep. revert m. induction s as [|a s IH]; intros m; cbn [strings.Index].
  - destruct (String.prefix sep ""); [|done]. intros [= <-]. by destruct sep.
  - destruct (String.prefix sep (String a s)) eqn:Hp.
    + intros [= <-]. by destruct sep.
    + destruct (strings.Index s sep) as [m'|] eqn:Hi; [|done].
      intros [= <-]. cbn [slice_to strings.Index].
      destruct (String.prefix sep (String a (slice_to m' s))) eqn:Hp'.
      * apply (prefix_slice_to sep (S m') (String a s)) in Hp'. congruence.
      * by rewrite (IH m' eq_refl).
Qed.

Lemma Index_empty sep : sep <> "" -> strings.Index "" sep = None.
Proof. by destruct sep. Qed.

Lemma genSplit_go_nonempty k s sep : strings.genSplit_go k s sep 0 <> [].
Proof. destruct k; cbn; [done|]. by destruct (strings.Index s sep). Qed.

Lemma Join_cons x a sep :
  a <> [] -> Join (x :: a) sep = x +:+ sep +:+ Join a sep.
Proof. by destruct a. Qed.

Lemma genSplit_go_join k s sep : Join (strings.genSplit_go k s sep 0) sep = s.
Proof.
  revert s. induction k as [|k IH]; intros s; cbn [strings.genSplit_go]; [done|].
  destruct (strings.Index s sep) as [m|] eqn:Hi; [|done].
  rewrite Join_cons by apply genSplit_go_nonempty.
  rewrite IH, Nat.add_0_r, slice_from_add.
  destruct (Index_Some _ _ _ Hi) as [Hp _].
  by rewrite (prefix_split _ _ Hp), slice_to_from.
Qed.

Lemma Count_go_le fuel s sep : (strings.Count_go fuel s sep <= fuel)%nat.
Proof.
  revert s. induction fuel as [|fuel IH]; intros s; cbn; [lia|].
  destruct (strings.Index s sep); [|lia].
  specialize (IH (slice_from (n + String.length sep) s)). lia.
Qed.

(** With the fuel [Count] gives it, the loop of [genSplit] stops on a
    piece with no separator in it, and so does every piece before. *)
Lemma genSplit_go_pieces fuel s sep :
  sep <> "" -> (String.length s <= fuel)%nat ->
  Forall (fun piece => strings.Index piece sep = None)
    (strings.genSplit_go (strings.Count_go fuel s sep) s sep 0).
Proof.
  intros Hsep. revert s. induction fuel as [|fuel IH]; intros s Hlen.
  - destruct s; [|cbn in Hlen; lia]. cbn.
    constructor; [by apply Index_empty|constructor].
  - cbn [strings.Count_go].
    destruct (strings.Index s sep) as [m|] eqn:Hi.
    + cbn [strings.genSplit_go]. rewrite Hi. constructor.
      * rewrite Nat.add_0_r. by apply Index_first.
      * apply IH. rewrite slice_from_length.
        destruct (Index_Some _ _ _ Hi) as [Hp Hm].
        apply prefix_length in Hp. rewrite slice_from_length in Hp.
        destruct sep; [done|]. cbn [String.length] in *. lia.
    + cbn [strings.genSplit_go]. by constructor.
Qed.

Lemma Split_nonempty_sep s sep :
  sep <> "" ->
  strings.Split s sep
  = strings.genSplit_go (strings.Count_go (String.length s) s sep) s sep 0.
Proof.
  intros Hsep. unfold strings.Split, strings.genSplit, strings.Count.
  destruct sep as [|c sep]; [done|]. cbn [Z.eqb Z.ltb Z.compare].
  pose proof (Count_go_le (String.length s) s (String c sep)) as Hle.
  destruct (_ <? _) eqn:Hlt; [apply Z.ltb_lt in Hlt; lia|].
  f_equal. lia.
Qed.

Lemma count_go_zero fuel s :
  (String.length s <= fuel)%nat -> utf8.count_go fuel s = O -> s = "".
Proof. destruct fuel, s; cbn; try done. lia. Qed.

Lemma explode_go_join k s : Join (strings.explode_go k s) "" = s.
Proof.
  revert s. induction k as [|k IH]; intros s; cbn [strings.explode_go]; [done|].
  rewrite Join_cons by (by destruct k).
  rewrite IH. cbn. apply slice_to_from.
Qed.

(** What [strings.Split] returns: pieces that give the string back when
    joined with the separator and, the separator not being empty, have no
    separator in them. *)
Lemma Split_spec s sep :
  Join (strings.Split s sep) sep = s
  /\ (sep <> "" ->
      Forall (fun piece => strings.Index piece sep = None) (strings.Split s sep)).
Proof.
  split.
  - destruct sep as [|c sep].
    + unfold strings.Split, strings.genSplit, strings.explode.
      cbn [Z.eqb Z.ltb Z.compare orb].
      destruct (0 <? _) eqn:Hn; [apply explode_go_join|].
      apply Z.ltb_ge in Hn. symmetry.
      apply (count_go_zero (String.length s)); [done|].
      unfold utf8.RuneCountInString in Hn. lia.
    + rewrite Split_nonempty_sep by done. apply genSplit_go_join.
  - intros Hsep. rewrite Split_nonempty_sep by done.
    by apply genSplit_go_pieces.
Qed.

(** ** The fuel of the library loops is enough *)

Lemma DecodeRune_size_pos s :
  s <> "" -> (1 <= snd (utf8.DecodeRuneInString s))%nat.
Proof.
  destruct s as [|c0 s]; [done|]. intros _. unfold utf8.DecodeRuneInString.
  repeat case_match; cbn [snd]; lia.
Qed.

Lemma back_le s start k : (utf8.back s start k <= start)%nat.
Proof.
  revert start. induction k as [|k IH]; intros start; cbn [utf8.back].
  - destruct (utf8.RuneStart _); lia.
  - destruct (utf8.RuneStart _); [lia|].
    specialize (IH (Nat.pred start)). lia.
Qed.

Lemma slice_from_nonempty n s :
  (n < String.length s)%nat -> slice_from n s <> "".
Proof.
  intros Hn Hs. pose proof (slice_from_length n s) as Hl.
  rewrite Hs in Hl. cbn in Hl. lia.
Qed.

Lemma DecodeLastRune_size_pos s :
  s <> "" -> (1 <= snd (utf8.DecodeLastRuneInString s))%nat.
Proof.
  intros Hs. unfold utf8.DecodeLastRuneInString.
  destruct (String.length s) as [|start] eqn:Hlen; [by destruct s|].
  destruct (_ <? utf8.RuneSelf); [cbn; lia|].
  set (start' := match start with O => O | S p => _ end).
  assert (Hst : (start' < S start)%nat).
  { unfold start'. destruct start as [|p]; [lia|].
    destruct (_ <? _)%nat; [lia|].
    pose proof (back_le s p (p - (S (S p) - utf8.UTFMax))). lia. }
  pose proof (DecodeRune_size_pos (slice_from start' s)) as Hpos.
  destruct (utf8.DecodeRuneInString (slice_from start' s)) as [r size].
  destruct (negb _); cbn [snd] in *; [lia|].
  apply Hpos, slice_from_nonempty. lia.
Qed.

Lemma indexFunc_go_fuel f truth n m s i :
  (String.length s <= n)%nat -> (String.length s <= m)%nat ->
  strings.indexFunc_go n f truth s i = strings.indexFunc_go m f truth s i.
Proof.
  revert m s i. induction n as [|n IH]; intros m s i Hn Hm.
  - destruct s; [by destruct m|cbn in Hn; lia].
  - destruct s as [|c s]; [by destruct m|].
    destruct m as [|m]; [cbn in Hm; lia|].
    cbn [strings.indexFunc_go].
    pose proof (DecodeRune_size_pos (String c s)) as Hpos.
    destruct (utf8.DecodeRuneInString (String c s)) as [r size].
    destruct (Bool.eqb _ _); [done|].
    cbn [snd] in Hpos. specialize (Hpos ltac:(done)).
    apply IH; rewrite slice_from_length; cbn [String.length] in *; lia.
Qed.

Lemma slice_to_length n s :
  String.length (slice_to n s) = Nat.min n (String.length s).
Proof.
  revert s. induction n as [|n IH]; intros [|c s]; cbn; try done.
  by rewrite IH.
Qed.

Lemma lastIndexFunc_go_fuel f truth n m s i :
  (i <= String.length s)%nat -> (i <= n)%nat -> (i <= m)%nat ->
  strings.lastIndexFunc_go n f truth s i
  = strings.lastIndexFunc_go m f truth s i.
Proof.
  revert m i. induction n as [|n IH]; intros m i Hi Hn Hm.
  - assert (i = O) as -> by lia. by destruct m.
  - destruct i as [|i]; [by destruct m|].
    destruct m as [|m]; [lia|].
    cbn [strings.lastIndexFunc_go].
    pose proof (DecodeLastRune_size_pos (slice_to (S i) s)) as Hpos.
    destruct (utf8.DecodeLastRuneInString (slice_to (S i) s)) as [r size].
    destruct (Bool.eqb _ _); [done|].
    cbn [snd] in Hpos.
    assert (1 <= size)%nat.
    { apply Hpos. intros Hs. pose proof (slice_to_length (S i) s) as Hl.
      rewrite Hs in Hl. cbn [String.length] in Hl. lia. }
    apply IH; lia.
Qed.

Lemma count_go_fuel n m s :
  (String.length s <= n)%nat -> (String.length s <= m)%nat ->
  utf8.count_go n s = utf8.count_go m s.
Proof.
  revert m s. induction n as [|n IH]; intros m s Hn Hm.
  - destruct s; [by destruct m|cbn in Hn; lia].
  - destruct s as [|c s]; [by destruct m|].
    destruct m as [|m]; [cbn in Hm; lia|].
    cbn [utf8.count_go]. f_equal.
    pose proof (DecodeRune_size_pos (String c s) ltac:(done)) as Hpos.
    apply IH; rewrite slice_from_length; cbn [String.length] in *; lia.
Qed.

Lemma Count_go_fuel n m s sep :
  sep <> "" -> (String.length s <= n)%nat -> (String.length s <= m)%nat ->
  strings.Count_go n s sep = strings.Count_go m s sep.
Proof.
  intros Hsep. revert m s. induction n as [|n IH]; intros m s Hn Hm.
  - destruct s; [|cbn in Hn; lia].
    destruct m; cbn [strings.Count_go]; [done|]. by rewrite Index_empty.
  - destruct m as [|m].
    + destruct s; [|cbn in Hm; lia].
      cbn [strings.Count_go]. by rewrite Index_empty.
    + cbn [strings.Count_go].
      destruct (strings.Index s sep) as [i|] eqn:Hi; [|done]. f_equal.
      destruct (Index_Some _ _ _ Hi) as [Hp Hle].
      apply prefix_length in Hp. rewrite slice_from_length in Hp.
      destruct sep; [done|]. cbn [String.length] in *.
      apply IH; rewrite slice_from_length; lia.
Qed.

(** C6 (as the code has it): on a non-empty resolved value the
    Array-of-String accessor returns the pieces [strings.Split] cuts the
    value into at the delimiter, in order and as they are: nothing is
    trimmed.  Joined with the delimiter the pieces give the value back,
    and no piece holds a delimiter that is not empty.  The accessor never
    panics. *)
Theorem ArrayString_splits_untrimmed (w : World) (key split : string)
    (d : list string) :
  (exists l, result (GetEnvArrayString key split d) w = Return l)
  /\ (forall val,
        result (GetEnvString key "") w = Return val -> val <> "" ->
        exists pieces,
          result (GetEnvArrayString key split d) w = Return pieces
          /\ pieces = strings.Split val split
          /\ Join pieces split = val
          /\ (split <> "" ->
              Forall (fun piece => strings.Index piece split = None) pieces)).
Proof.
  unfold result, GetEnvArrayString. rewrite bind_raw_run. split.
  - case_bool_decide; by eexists.
  - intros val Hval Hne. apply raw_of_result in Hval. rewrite Hval.
    case_bool_decide; [|done]. eexists. split; [done|]. split; [done|].
    apply Split_spec.
Qed.

Lemma ParseBool_true val :
  val ∈ true_spellings -> strconv.ParseBool val = inr true.
Proof. intros H. unfold strconv.ParseBool. by rewrite bool_decide_true. Qed.

Lemma ParseBool_false val :
  val ∈ false_spellings -> strconv.ParseBool val = inr false.
Proof.
  intros H. unfold strconv.ParseBool.
  rewrite bool_decide_false, bool_decide_true; [done..|].
  unfold false_spellings in H. set_unfold. intros Ht.
  destruct_or!; subst; discriminate.
Qed.

Lemma ParseBool_other val :
  val ∉ true_spellings -> val ∉ false_spellings ->
  strconv.ParseBool val = inl (strconv.syntaxError "ParseBool" val).
Proof.
  intros Ht Hf. unfold strconv.ParseBool.
  by rewrite !bool_decide_false.
Qed.

(** C7 (as the code has it): the Boolean accessor accepts the twelve
    strings [strconv.ParseBool] lists, 1 t T true TRUE True for true and
    0 f F false FALSE False for false, and no other casing: any other
    non-empty value makes it panic.  The lowercase true is among them. *)
Theorem Bool_spellings (w : World) (key val : string) (d : bool) :
  result (GetEnvString key "") w = Return val ->
  (val ∈ true_spellings -> result (GetEnvBool key d) w = Return true)
  /\ (val ∈ false_spellings -> result (GetEnvBool key d) w = Return false)
  /\ (val <> "" -> val ∉ true_spellings -> val ∉ false_spellings ->
      exists msg, result (GetEnvBool key d) w = Panic msg /\ Contains msg key).
Proof.
  intros Hres. apply raw_of_result in Hres.
  assert (Hne : val ∈ true_spellings ++ false_spellings -> val <> "").
  { intros Hin ->. unfold true_spellings, false_spellings in Hin.
    set_unfold. destruct_or!; discriminate. }
  split_and!.
  - intros Hin. unfold GetEnvBool.
    assert (val <> "") by (apply Hne, elem_of_app; by left).
    rewrite (scalar_run _ _ _ _ _ val) by done.
    by rewrite ParseBool_true.
  - intros Hin. unfold GetEnvBool.
    assert (val <> "") by (apply Hne, elem_of_app; by right).
    rewrite (scalar_run _ _ _ _ _ val) by done.
    by rewrite ParseBool_false.
  - intros Hval Ht Hf. unfold GetEnvBool.
    rewrite (scalar_run _ _ _ _ _ val) by done.
    rewrite ParseBool_other by done. simpl.
    eexists; split; [done|]. apply Contains_middle.
Qed.

(** ** The overlay *)

Lemma prefix_str1 c s : String.prefix (String c "") s = starts_with c s.
Proof.
  destruct s as [|a s]; simpl; [done|].
  destruct (ascii_dec c a) as [->|Hne].
  - rewrite bool_decide_true by done. by destruct s.
  - by rewrite bool_decide_false by congruence.
Qed.

(** Cutting at the first occurrence of a byte is what [Index] and the two
    slices do. *)
Lemma Index_cut c s :
  match cut_first c s with
  | Some (k, v) =>
    strings.Index s (String c "") = Some (String.length k)
    /\ slice_to (String.length k) s = k
    /\ slice_from (String.length k + 1) s = v
  | None => strings.Index s (String c "") = None
  end.
Proof.
  induction s as [|a s IH].
  - done.
  - cbn [cut_first strings.Index]. rewrite prefix_str1. cbn [starts_with].
    case_bool_decide as Ha.
    + done.
    + destruct (cut_first c s) as [[k v]|].
      * destruct IH as (-> & Hk & Hv). cbn. by rewrite Hk.
      * by rewrite IH.
Qed.

Lemma SplitN_cut line :
  line <> "" ->
  strings.SplitN line "=" 2
  = match cut_first "=" line with
    | Some (k, v) => [k; v]
    | None => [line]
    end.
Proof.
  intros Hne. unfold strings.SplitN, strings.genSplit.
  cbn [Z.eqb Z.ltb Z.compare].
  assert (Hlen : (Z.of_nat (String.length line) + 1 <? 2) = false).
  { destruct line; [done|]. apply Z.ltb_ge. cbn [String.length]. lia. }
  rewrite Hlen. change (Z.to_nat (2 - 1)) with 1%nat.
  cbn [strings.genSplit_go]. pose proof (Index_cut "=" line) as Hcut.
  destruct (cut_first "=" line) as [[k v]|].
  - destruct Hcut as (-> & Hk & Hv).
    rewrite Nat.add_0_r, Hk. change (String.length "=") with 1%nat.
    by rewrite Hv.
  - by rewrite Hcut.
Qed.

Lemma with_envMap_id w : with_envMap (envMap w) w = w.
Proof. by destruct w. Qed.

Lemma init_line_run text w :
  init_line tt text w
  = (Return tt, with_envMap (line_step (environ w) (envMap w) text) w).
Proof.
  unfold init_line, line_step, parse_line.
  set (line := strings.TrimSpace text).
  unfold strings.HasPrefix. rewrite (prefix_str1 "#" line).
  case_bool_decide as Hline; cbn [orb].
  { unfold ret. by rewrite with_envMap_id. }
  destruct (starts_with "#" line).
  { unfold ret. by rewrite with_envMap_id. }
  rewrite SplitN_cut by done.
  destruct (cut_first "=" line) as [[k v]|].
  - unfold bind, os_LookupEnv, insert_pair. cbn [fst snd].
    destruct (environ w !! strings.TrimSpace k).
    + unfold ret. by rewrite with_envMap_id.
    + done.
  - unfold ret. by rewrite with_envMap_id.
Qed.

Lemma overlay_from_cons env m text lines :
  overlay_from env m (text :: lines)
  = overlay_from env (line_step env m text) lines.
Proof.
  unfold overlay_from, line_step. cbn [omap list_omap].
  by destruct (parse_line text).
Qed.

Lemma overlay_from_app env m l1 l2 :
  overlay_from env m (l1 ++ l2) = overlay_from env (overlay_from env m l1) l2.
Proof.
  revert m. induction l1 as [|x l1 IH]; intros m; [done|].
  cbn [app]. by rewrite !overlay_from_cons, IH.
Qed.

Lemma init_lines_run lines w :
  for_range lines init_line tt w
  = (Return tt, with_envMap (overlay_from (environ w) (envMap w) lines) w).
Proof.
  revert w. induction lines as [|text lines IH]; intros w.
  - cbn. unfold ret, overlay_from. cbn. by rewrite with_envMap_id.
  - cbn [for_range]. unfold bind. rewrite init_line_run, IH.
    by rewrite overlay_from_cons.
Qed.

Lemma init_file_run file w :
  init_file tt file w
  = (Return tt,
     with_envMap
       (overlay_from (environ w) (envMap w) (file_lines (host w) file)) w).
Proof.
  unfold init_file, bind, os_Open_lines, file_lines.
  destruct (Open (host w) file) as [lines|]; cbn [default].
  - apply init_lines_run.
  - unfold ret, overlay_from. cbn. by rewrite with_envMap_id.
Qed.

Lemma init_files_run files w :
  for_range files init_file tt w
  = (Return tt,
     with_envMap
       (overlay_from (environ w) (envMap w)
          (concat (file_lines (host w) <$> files))) w).
Proof.
  revert w. induction files as [|file files IH]; intros w.
  - cbn. unfold ret, overlay_from. cbn. by rewrite with_envMap_id.
  - cbn [for_range]. unfold bind. rewrite init_file_run, IH.
    cbn [fmap list_fmap concat]. by rewrite overlay_from_app.
Qed.

Lemma init_run w :
  init w
  = (Return tt,
     with_envMap
       (overlay_from (environ w) (envMap w) (discovered_lines (host w))) w).
Proof.
  unfold init, discovered_lines, bind, os_Executable, filepath_Glob_env.
  destruct (Executable (host w)) as [exePath|].
  - destruct (GlobEnv (host w) exePath) as [files|].
    + apply init_files_run.
    + unfold ret, overlay_from. cbn. by rewrite with_envMap_id.
  - unfold ret, overlay_from. cbn. by rewrite with_envMap_id.
Qed.

(** What the fold leaves for a key: the last value a pair gave it, unless
    the process environment has the key. *)
Lemma last_binding_snoc k pairs p :
  last_binding k (pairs ++ [p])
  = if bool_decide (p.1 = k) then Some p.2 else last_binding k pairs.
Proof.
  unfold last_binding. rewrite filter_app.
  case_bool_decide as Hp.
  - rewrite (filter_cons_True _ p []) by done. cbn [filter list_filter].
    by rewrite last_snoc.
  - rewrite (filter_cons_False _ p []) by done. cbn [filter list_filter].
    by rewrite app_nil_r.
Qed.

Lemma foldl_insert_pair_lookup env m pairs k :
  foldl (insert_pair env) m pairs !! k
  = match env !! k with
    | Some _ => m !! k
    | None =>
      match last_binding k pairs with
      | Some v => Some v
      | None => m !! k
      end
    end.
Proof.
  induction pairs as [|p pairs IH] using rev_ind.
  - cbn. by destruct (env !! k).
  - rewrite foldl_app, last_binding_snoc. cbn [foldl].
    unfold insert_pair at 1. case_bool_decide as Hp.
    + rewrite Hp. destruct (env !! k) eqn:Hk; [done|].
      by rewrite lookup_insert_eq.
    + destruct (env !! p.1) eqn:Hp1; [done|].
      by rewrite lookup_insert_ne.
Qed.

(** C3: the overlay [init] builds is the map obtained by taking the lines
    of the discovered files in order: each line trimmed, skipped when
    empty or starting with [#], cut at its first [=] into a trimmed key
    and a trimmed value, skipped when it has no [=]; the pair is inserted
    when the key is not in the process environment, whatever the overlay
    holds, so that a key keeps the last value given to it.  [init] does
    not panic and leaves the process environment as it was. *)
Theorem init_builds_overlay (env : gmap string string) (h : Host) :
  let w := boot env h in
  result init w = Return tt
  /\ environ (after init w) = env
  /\ envMap (after init w) = overlay_of env (discovered_lines h)
  /\ (forall k,
        envMap (after init w) !! k
        = match env !! k with
          | Some _ => None
          | None => last_binding k (omap parse_line (discovered_lines h))
          end).
Proof.
  intros w. unfold result, after. rewrite init_run. cbn [fst snd].
  split_and!; [done..|].
  intros k. cbn. unfold overlay_from.
  rewrite foldl_insert_pair_lookup, lookup_empty.
  destruct (env !! k); [done|].
  by destruct (last_binding _ _).
Qed.

(** ** Effects *)

Lemma exec_environ op w : environ (exec op w) = environ w.
Proof.
  destruct op as [|c]; unfold exec.
  - unfold after. by rewrite init_run.
  - by rewrite run_readonly.
Qed.

(** C8: no operation of the package, the startup scan or an accessor
    call, writes the process environment: after any sequence of
    operations it is what it was, at every key. *)
Theorem environ_never_written (ops : list operation) (w : World) :
  environ (exec_all ops w) = environ w
  /\ forall key, environ (exec_all ops w) !! key = environ w !! key.
Proof.
  assert (H : environ (exec_all ops w) = environ w).
  { unfold exec_all. revert w.
    induction ops as [|op ops IH]; intros w; [done|].
    cbn [foldl]. by rewrite IH, exec_environ. }
  split; [done|]. intros key. by rewrite H.
Qed.

(** C9: an accessor call reads only the process environment and the
    overlay and changes nothing: in two states with the same environment
    and the same overlay the same call has the same result, the call
    leaves the state as it was, and so a second call returns what the
    first did. *)
Theorem accessor_deterministic (c : call) (w w' : World) :
  environ w = environ w' -> envMap w = envMap w' ->
  result (run c) w = result (run c) w'
  /\ after (run c) w = w
  /\ result (run c) (after (run c) w) = result (run c) w.
Proof.
  intros He Hm. split_and!.
  - apply run_effective. unfold effective. by rewrite He, Hm.
  - apply run_readonly.
  - by rewrite run_readonly.
Qed.

(** ** The two layers together *)

Lemma effective_merged w key : effective (merged w) key = effective w key.
Proof.
  unfold effective, merged. cbn [environ envMap].
  rewrite lookup_union, lookup_empty.
  destruct (environ w !! key), (envMap w !! key); done.
Qed.

(** X1: the two-layer lookup is a lookup in one map.  Every accessor call
    has the outcome it would have with the overlay poured under the
    process environment (the union that keeps the environment's value
    where both have the key) and no overlay at all. *)
Theorem two_layers_as_union (c : call) (w : World) :
  result (run c) w = result (run c) (merged w).
Proof. apply run_effective. by rewrite effective_merged. Qed.

(** X2: startup followed by a lookup.  After [init] has run in a fresh
    process, [GetEnvString] returns the process-environment value of the
    key when there is one; else the value of the last line of the
    discovered files that defines the key; else the default. *)
Theorem startup_then_GetEnvString (env : gmap string string) (h : Host)
    (key d : string) :
  result (GetEnvString key d) (after init (boot env h))
  = Return match env !! key with
           | Some v => v
           | None =>
             default d
               (last_binding key (omap parse_line (discovered_lines h)))
           end.
Proof.
  unfold result, after. rewrite init_run, GetEnvString_run.
  cbn [fst snd]. f_equal. unfold effective, with_envMap, boot.
  cbn [environ envMap host].
  destruct (env !! key) eqn:He; [done|].
  unfold overlay_from. rewrite foldl_insert_pair_lookup, He, lookup_empty.
  by destruct (last_binding _ _).
Qed.

Lemma no_lines_of_unreadable h files :
  Forall (fun f => Open h f = None) files ->
  concat (file_lines h <$> files) = [].
Proof.
  induction 1 as [|f files Hf _ IH]; [done|].
  cbn [fmap list_fmap concat]. unfold file_lines at 1. by rewrite Hf, IH.
Qed.

(** X3: [init] degrades silently.  When the executable path is not
    available, or the directory cannot be listed, or none of the listed
    files can be opened, [init] returns without a panic and leaves the
    whole state, the overlay included, as it found it. *)
Theorem init_degrades_silently (w : World) :
  Executable (host w) = None
  \/ (exists exePath,
        Executable (host w) = Some exePath
        /\ (GlobEnv (host w) exePath = None
            \/ exists files,
                GlobEnv (host w) exePath = Some files
                /\ Forall (fun f => Open (host w) f = None) files)) ->
  init w = (Return tt, w).
Proof.
  intros H. rewrite init_run.
  assert (Hl : discovered_lines (host w) = []).
  { unfold discovered_lines.
    destruct H as [->|(exePath & -> & [->|(files & -> & Hf)])]; [done..|].
    by apply no_lines_of_unreadable. }
  rewrite Hl. unfold overlay_from. cbn. by rewrite with_envMap_id.
Qed.

(** ** What the overlay holds *)

Lemma Index_None_iff s sep :
  strings.Index s sep = None
  <-> forall n, String.prefix sep (slice_from n s) = false.
Proof.
  induction s as [|a s IH]; cbn [strings.Index].
  - split.
    + intros H n. destruct n; cbn [slice_from];
        by destruct (String.prefix sep "").
    + intros H. pose proof (H O) as H0. cbn [slice_from] in H0.
      by rewrite H0.
  - split.
    + intros H n. destruct (String.prefix sep (String a s)) eqn:Hp; [done|].
      destruct n as [|n]; [done|]. cbn [slice_from]. apply IH.
      by destruct (strings.Index s sep).
    + intros H. pose proof (H O) as H0. cbn [slice_from] in H0.
      rewrite H0.
      assert (Hs : strings.Index s sep = None)
        by (apply IH; intros n; apply (H (S n))).
      by rewrite Hs.
Qed.

Lemma slice_to_empty n : slice_to n "" = "".
Proof. by destruct n. Qed.

Lemma slice_from_slice_to n j s :
  slice_from n (slice_to j s) = slice_to (j - n) (slice_from n s).
Proof.
  revert j s. induction n as [|n IH]; intros j s.
  - by rewrite Nat.sub_0_r.
  - destruct s as [|c s].
    + by rewrite !slice_to_empty.
    + destruct j as [|j]; [done|]. cbn [slice_to slice_from Nat.sub].
      apply IH.
Qed.

Lemma Index_None_slice_from n s sep :
  strings.Index s sep = None -> strings.Index (slice_from n s) sep = None.
Proof.
  rewrite !Index_None_iff. intros H m. rewrite <- slice_from_add. apply H.
Qed.

Lemma Index_None_slice_to j s sep :
  strings.Index s sep = None -> strings.Index (slice_to j s) sep = None.
Proof.
  rewrite !Index_None_iff. intros H n. rewrite slice_from_slice_to.
  destruct (String.prefix sep (slice_to _ _)) eqn:Hp; [|done].
  apply prefix_slice_to in Hp. by rewrite H in Hp.
Qed.

(** Trimming takes a slice, so it brings in no separator. *)
Lemma TrimSpace_Index_None s sep :
  sep <> "" -> strings.Index s sep = None ->
  strings.Index (strings.TrimSpace s) sep = None.
Proof.
  intros Hsep Hs.
  unfold strings.TrimSpace, strings.TrimFunc, strings.TrimRightFunc.
  assert (Hl : strings.Index (strings.TrimLeftFunc s unicode.IsSpace) sep = None).
  { unfold strings.TrimLeftFunc. destruct (strings.indexFunc _ _ _).
    - by apply Index_None_slice_from.
    - by apply Index_empty. }
  repeat case_match; by apply Index_None_slice_to.
Qed.

Lemma parse_line_key text k v :
  parse_line text = Some (k, v) -> strings.Index k "=" = None.
Proof.
  unfold parse_line. set (line := strings.TrimSpace text).
  case_bool_decide; [done|]. destruct (starts_with "#" line); [done|].
  pose proof (Index_cut "=" line) as Hcut.
  destruct (cut_first "=" line) as [[k0 v0]|]; [|done].
  destruct Hcut as (Hi & Hk & _). intros [= <- <-].
  apply TrimSpace_Index_None; [done|].
  rewrite <- Hk. by apply Index_first.
Qed.

Lemma last_binding_Some k pairs v :
  last_binding k pairs = Some v -> (k, v) ∈ pairs.
Proof.
  unfold last_binding. intros H. apply fmap_Some in H as ([k' v'] & Hl & ->).
  apply last_Some_elem_of, list_elem_of_filter in Hl as [Hk Hin].
  cbn in Hk. by subst.
Qed.

(** X4: what [init] never stores.  After startup, a key that is in the
    overlay is not a key of the process environment, and has no [=] in
    it. *)
Theorem overlay_keys (env : gmap string string) (h : Host) (k : string) :
  is_Some (envMap (after init (boot env h)) !! k) ->
  env !! k = None /\ strings.Index k "=" = None.
Proof.
  unfold after. rewrite init_run. cbn [snd with_envMap envMap environ boot].
  unfold overlay_from. rewrite foldl_insert_pair_lookup, lookup_empty.
  destruct (env !! k); [by intros [? [=]]|]. intros [v Hv]. split; [done|].
  destruct (last_binding _ _) as [v'|] eqn:Hl; [|done].
  apply last_binding_Some, list_elem_of_omap in Hl as (text & _ & Hp).
  by eapply parse_line_key.
Qed.

(** ** The map form *)

Lemma SplitN_2 sep s :
  sep <> "" ->
  strings.SplitN s sep 2
  = match cut_at sep s with
    | Some (k, v) => [k; v]
    | None => [s]
    end.
Proof.
  intros Hsep. unfold strings.SplitN, strings.genSplit, cut_at.
  destruct sep as [|c sep]; [done|]. cbn [Z.eqb Z.ltb Z.compare].
  destruct s as [|a s].
  - reflexivity.
  - assert (Hlen : (Z.of_nat (String.length (String a s)) + 1 <? 2) = false)
      by (apply Z.ltb_ge; cbn [String.length]; lia).
    rewrite Hlen. change (Z.to_nat (2 - 1)) with 1%nat.
    cbn [strings.genSplit_go].
    destruct (strings.Index _ _) as [m|]; [|done].
    by rewrite Nat.add_0_r.
Qed.

Lemma entry_pair_cut kd entry :
  kd <> "" ->
  entry_pair kd entry
  = match cut_at kd entry with
    | Some (k, v) => Some (strings.TrimSpace k, strings.TrimSpace v)
    | None => None
    end.
Proof.
  intros Hkd. unfold entry_pair. rewrite SplitN_2 by done.
  by destruct (cut_at kd entry) as [[k v]|].
Qed.

Lemma foldl_assign_lookup m ps k :
  foldl assign m ps !! k
  = match last_binding k ps with
    | Some v => Some v
    | None => m !! k
    end.
Proof.
  induction ps as [|p ps IH] using rev_ind; [done|].
  rewrite foldl_app, last_binding_snoc. cbn [foldl]. unfold assign at 1.
  case_bool_decide as Hp.
  - by rewrite Hp, lookup_insert_eq.
  - by rewrite lookup_insert_ne.
Qed.

Lemma Map_run key ed kd d w val :
  raw w key = val -> val <> "" ->
  let entries := strings.Split val ed in
  (exists ps,
      Forall2 (fun e p => entry_pair kd e = Some p) entries ps
      /\ result (GetEnvMapStringString key ed kd d) w
         = Return (foldl assign ∅ ps))
  \/ (exists pre bad post,
        entries = pre ++ bad :: post
        /\ entry_pair kd bad = None
        /\ result (GetEnvMapStringString key ed kd d) w
           = Panic ("Environment variable " +:+ key
                      +:+ " contains invalid map entry: " +:+ bad)).
Proof.
  intros Hraw Hne entries.
  unfold result, GetEnvMapStringString. rewrite bind_raw_run, Hraw.
  case_bool_decide; [|done]. fold entries.
  rewrite (for_range_ext _ _
             (fun acc entry =>
                match entry_pair kd entry with
                | Some p => ret (assign acc p)
                | None =>
                  panic ("Environment variable " +:+ key
                           +:+ " contains invalid map entry: " +:+ entry)
                end)).
  2:{ intros acc x w0. unfold GetEnvMapStringString_body, entry_pair.
      by destruct (strings.SplitN x kd 2) as [|k [|v [|y l]]]. }
  destruct (for_range_fold (entry_pair kd) assign
              (fun entry => "Environment variable " +:+ key
                            +:+ " contains invalid map entry: " +:+ entry)
              entries ∅ w)
    as [(ps & Hps & Hrun)|(pre & bad & post & Hp & Hpre & Hbad & Hrun)].
  - left. exists ps. by rewrite Hrun.
  - right. exists pre, bad, post. by rewrite Hrun.
Qed.

(** X5: how the map form reads an entry.  With a key/value delimiter that
    is not empty, an entry is accepted when the delimiter occurs in it,
    once or more: the key is the trimmed text before the first occurrence
    and the value the trimmed rest, later delimiters included.  When every
    entry is accepted the map returned gives each key the value of the
    last entry that has it; an entry without the delimiter makes the call
    panic. *)
Theorem Map_entries (w : World) (key ed kd val : string)
    (d : gmap string string) :
  result (GetEnvString key "") w = Return val -> val <> "" -> kd <> "" ->
  let entries := strings.Split val ed in
  let pair_of := fun '(k, v) => (strings.TrimSpace k, strings.TrimSpace v) in
  (Forall (fun e => is_Some (strings.Index e kd)) entries ->
   exists m,
     result (GetEnvMapStringString key ed kd d) w = Return m
     /\ forall k,
         m !! k = last_binding k (omap (fun e => pair_of <$> cut_at kd e) entries))
  /\ (Exists (fun e => strings.Index e kd = None) entries ->
      exists msg, result (GetEnvMapStringString key ed kd d) w = Panic msg).
Proof.
  intros Hres Hne Hkd entries pair_of. subst entries.
  apply raw_of_result in Hres.
  assert (Hpair : forall e, entry_pair kd e = pair_of <$> cut_at kd e).
  { intros e. rewrite entry_pair_cut by done.
    by destruct (cut_at kd e) as [[k v]|]. }
  assert (Hcut : forall e, cut_at kd e = None <-> strings.Index e kd = None).
  { intros e. unfold cut_at. by destruct (strings.Index e kd). }
  destruct (Map_run key ed kd d w val Hres Hne)
    as [(ps & Hps & Hrun)|(pre & bad & post & Hp & Hbad & Hrun)].
  - split.
    + intros _. exists (foldl assign ∅ ps). split; [done|]. intros k.
      rewrite foldl_assign_lookup, lookup_empty.
      assert (Hom : omap (fun e => pair_of <$> cut_at kd e)
                      (strings.Split val ed) = ps).
      { clear -Hps Hpair. induction Hps as [|e p es ps He _ IH]; [done|].
        cbn [omap list_omap]. rewrite <- Hpair, He. by rewrite IH. }
      rewrite Hom. by destruct (last_binding k ps).
    + intros Hex. apply Exists_exists in Hex as (e & Hin & He).
      apply list_elem_of_lookup in Hin as [i Hi].
      destruct (Forall2_lookup_l _ _ _ _ _ Hps Hi) as (p & _ & Hp).
      rewrite Hpair in Hp. apply Hcut in He. by rewrite He in Hp.
  - split.
    + intros Hall. rewrite Hp in Hall.
      apply Forall_app in Hall as [_ Hall]. apply Forall_cons in Hall as [[m Hm] _].
      rewrite Hpair in Hbad. apply fmap_None, Hcut in Hbad. congruence.
    + intros _. by eexists.
Qed.

(** ** The array forms *)

Lemma genSplit_go_length fuel s sep :
  length (strings.genSplit_go (strings.Count_go fuel s sep) s sep 0)
  = S (strings.Count_go fuel s sep).
Proof.
  revert s. induction fuel as [|fuel IH]; intros s; [done|].
  cbn [strings.Count_go].
  destruct (strings.Index s sep) as [m|] eqn:Hi; [|done].
  cbn [strings.genSplit_go]. rewrite Hi. cbn [length]. by rewrite IH.
Qed.

Lemma Count_nonempty_sep s sep :
  sep <> "" -> strings.Count s sep = strings.Count_go (String.length s) s sep.
Proof. by destruct sep. Qed.

(** X6: how many strings the Array-of-String accessor returns.  On a
    non-empty resolved value and a delimiter that is not empty, the result
    has one element more than the value has (non-overlapping) occurrences
    of the delimiter; a value without the delimiter comes back whole, as
    the only element. *)
Theorem ArrayString_length (w : World) (key split val : string)
    (d : list string) :
  result (GetEnvString key "") w = Return val -> val <> "" -> split <> "" ->
  exists l,
    result (GetEnvArrayString key split d) w = Return l
    /\ length l = S (strings.Count val split)
    /\ (strings.Index val split = None -> l = [val]).
Proof.
  intros Hres Hne Hsplit. apply raw_of_result in Hres.
  unfold result, GetEnvArrayString. rewrite bind_raw_run, Hres.
  case_bool_decide; [|done]. eexists. split; [done|].
  rewrite Split_nonempty_sep, Count_nonempty_sep by done. split.
  - apply genSplit_go_length.
  - intros Hi. destruct val as [|a val]; [done|].
    cbn [String.length strings.Count_go]. by rewrite Hi.
Qed.

Lemma Split_leading s sep :
  sep <> "" -> String.prefix sep s = true -> "" ∈ strings.Split s sep.
Proof.
  intros Hsep Hp. rewrite Split_nonempty_sep by done.
  assert (Hi : strings.Index s sep = Some O).
  { destruct s; cbn [strings.Index]; by rewrite Hp. }
  destruct s as [|a s]; [by destruct sep|].
  cbn [String.length strings.Count_go]. rewrite Hi.
  cbn [strings.genSplit_go]. rewrite Hi. cbn [slice_to Nat.add].
  apply list_elem_of_here.
Qed.

(** X7: an empty piece stops the Array-of-Integer accessor.  On a
    non-empty resolved value, when the split yields an empty string among
    its pieces the call panics; this is so when the value starts with the
    delimiter. *)
Theorem ArrayInt_empty_piece (w : World) (key split val : string)
    (d : list Z) :
  result (GetEnvString key "") w = Return val -> val <> "" ->
  "" ∈ strings.Split val split
  \/ (split <> "" /\ String.prefix split val = true) ->
  exists msg, result (GetEnvArrayInt key split d) w = Panic msg.
Proof.
  intros Hres Hne Hin. apply raw_of_result in Hres.
  assert (Hin' : "" ∈ strings.Split val split).
  { destruct Hin as [?|[? ?]]; [done|by apply Split_leading]. }
  destruct (array_run (fun s => lift_num (strconv.Atoi s))
              " array contains an invalid integer: " key split d w val Hres Hne)
    as [(ns & Hns & _)|(pre & bad & post & msg & _ & _ & _ & Hrun & _)].
  - apply list_elem_of_lookup in Hin' as [i Hi].
    destruct (Forall2_lookup_l _ _ _ _ _ Hns Hi) as (n & _ & Hn).
    discriminate Hn.
  - by exists msg.
Qed.

(** ** Integers *)

Lemma digit_range c d : strconv.digit c = Some d -> 0 <= d <= 9.
Proof.
  unfold strconv.digit, utf8.between.
  destruct (_ && _) eqn:Hb; [|done]. intros [= <-].
  apply andb_true_iff in Hb as [H1 H2]. lia.
Qed.

Lemma ParseUint_go_range s n v :
  0 <= n < 2 ^ 64 -> strconv.ParseUint_go s n = inr v -> 0 <= v < 2 ^ 64.
Proof.
  revert n. induction s as [|c s IH]; intros n Hn; cbn [strconv.ParseUint_go].
  - by intros [= <-].
  - destruct (strconv.digit c) as [d|]; [|done].
    destruct (_ <=? n); [done|].
    destruct (_ || _); [done|].
    apply IH. apply Z.mod_pos_bound. lia.
Qed.

(** What [strconv.Atoi] returns fits an [int]. *)
Lemma Atoi_range s n : strconv.Atoi s = inr n -> in_int_range n.
Proof.
  unfold strconv.Atoi, strconv.ParseInt10, in_int_range.
  destruct s as [|c s]; [done|].
  set (neg := bool_decide (c = "-"%char)).
  set (s' := if _ || neg then s else String c s).
  change (2 ^ (strconv.IntSize - 1)) with (2 ^ 63).
  destruct (strconv.ParseUint10 s') as [[]|un] eqn:Hu; [done| |].
  - destruct neg; cbn; done.
  - assert (0 <= un < 2 ^ 64).
    { unfold strconv.ParseUint10 in Hu. destruct s'; [done|].
      eapply ParseUint_go_range; [|apply Hu]. lia. }
    destruct neg; cbn [negb andb].
    + destruct (2 ^ 63 <? un) eqn:Hc; [done|]. intros [= <-].
      apply Z.ltb_ge in Hc. lia.
    + destruct (2 ^ 63 <=? un) eqn:Hc; [done|]. intros [= <-].
      apply Z.leb_gt in Hc. lia.
Qed.

Lemma digits_value_ge s acc v :
  0 <= acc -> digits_value s acc = Some v -> acc <= v.
Proof.
  revert acc. induction s as [|c s IH]; intros acc Hacc; cbn [digits_value].
  - intros [= <-]. lia.
  - destruct (strconv.digit c) as [d|] eqn:Hd; [|done].
    apply digit_range in Hd. intros Hv. apply IH in Hv; lia.
Qed.

(** The digit loop computes the value of the digits, or reports a range
    error when that value does not fit 64 bits. *)
Lemma ParseUint_go_spec s acc :
  0 <= acc < 2 ^ 64 ->
  match digits_value s acc with
  | Some v =>
    if v <? 2 ^ 64 then strconv.ParseUint_go s acc = inr v
    else strconv.ParseUint_go s acc = inl strconv.ErrRange
  | None => exists e, strconv.ParseUint_go s acc = inl e
  end.
Proof.
  revert acc. induction s as [|c s IH]; intros acc Hacc;
    cbn [digits_value strconv.ParseUint_go].
  - destruct (acc <? 2 ^ 64) eqn:Hlt; [done|]. apply Z.ltb_ge in Hlt. lia.
  - destruct (strconv.digit c) as [d|] eqn:Hd; [|by eexists].
    apply digit_range in Hd.
    assert (Hbig : forall v, digits_value s (acc * 10 + d) = Some v ->
                             2 ^ 64 <= acc * 10 + d -> (v <? 2 ^ 64) = false).
    { intros v Hv Hge. apply Z.ltb_ge.
      apply digits_value_ge in Hv; lia. }
    destruct ((2 ^ 64 - 1) / 10 + 1 <=? acc) eqn:Hcut.
    + apply Z.leb_le in Hcut.
      change ((2 ^ 64 - 1) / 10 + 1) with 1844674407370955162 in Hcut.
      destruct (digits_value s (acc * 10 + d)) as [v|] eqn:Hv; [|by eexists].
      rewrite (Hbig v eq_refl); [done|]. lia.
    + apply Z.leb_gt in Hcut.
      change ((2 ^ 64 - 1) / 10 + 1) with 1844674407370955162 in Hcut.
      destruct (Z_lt_dec (acc * 10 + d) (2 ^ 64)) as [Hfit|Hover].
      * rewrite (Z.mod_small (acc * 10 + d)) by lia.
        assert (Hno : ((acc * 10 + d <? acc * 10)
                       || (2 ^ 64 - 1 <? acc * 10 + d)) = false).
        { apply orb_false_iff. split; apply Z.ltb_ge; lia. }
        rewrite Hno. apply IH. lia.
      * assert (Hmod : (acc * 10 + d) mod 2 ^ 64 = acc * 10 + d - 2 ^ 64).
        { symmetry. apply (Z.mod_unique _ _ 1); lia. }
        rewrite Hmod.
        assert (Hyes : (acc * 10 + d - 2 ^ 64 <? acc * 10) = true)
          by (apply Z.ltb_lt; lia).
        rewrite Hyes. cbn [orb].
        destruct (digits_value s (acc * 10 + d)) as [v|] eqn:Hv; [|by eexists].
        rewrite (Hbig v eq_refl); [done|]. lia.
Qed.

Lemma ParseUint10_spec s :
  match unsigned_value s with
  | Some v =>
    0 <= v
    /\ if v <? 2 ^ 64 then strconv.ParseUint10 s = inr v
       else strconv.ParseUint10 s = inl strconv.ErrRange
  | None => exists e, strconv.ParseUint10 s = inl e
  end.
Proof.
  unfold unsigned_value, strconv.ParseUint10.
  destruct s as [|c s]; [by eexists|].
  pose proof (ParseUint_go_spec (String c s) 0 ltac:(lia)) as H.
  destruct (digits_value (String c s) 0) as [v|] eqn:Hv; [|done].
  split; [|done]. by apply digits_value_ge in Hv.
Qed.

(** [strconv.Atoi] on a numeral: its value when it fits an [int], an
    error when it does not; and an error on anything else. *)
Lemma Atoi_spec s :
  match numeral_value s with
  | Some n =>
    (in_int_range n -> strconv.Atoi s = inr n)
    /\ (~ in_int_range n -> exists e, strconv.Atoi s = inl e)
  | None => exists e, strconv.Atoi s = inl e
  end.
Proof.
  unfold numeral_value, strconv.Atoi, strconv.ParseInt10, in_int_range.
  destruct s as [|c s]; [by eexists|].
  change (2 ^ (strconv.IntSize - 1)) with (2 ^ 63).
  destruct (bool_decide (c = "-"%char)) eqn:Hneg.
  - rewrite orb_true_r. pose proof (ParseUint10_spec s) as H.
    destruct (unsigned_value s) as [u|]; cbn [fmap option_fmap option_map].
    + destruct H as [Hu H]. destruct (u <? 2 ^ 64) eqn:Hlt.
      * rewrite H. cbn [negb andb].
        apply Z.ltb_lt in Hlt.
        destruct (2 ^ 63 <? u) eqn:Hc.
        -- apply Z.ltb_lt in Hc. split; [lia|by eexists].
        -- apply Z.ltb_ge in Hc. split; [done|lia].
      * rewrite H. cbn. apply Z.ltb_ge in Hlt. split; [lia|by eexists].
    + destruct H as [[] ->]; cbn; by eexists.
  - destruct (bool_decide (c = "+"%char)) eqn:Hplus; cbn [orb].
    + pose proof (ParseUint10_spec s) as H.
      destruct (unsigned_value s) as [u|].
      * destruct H as [Hu H]. destruct (u <? 2 ^ 64) eqn:Hlt.
        -- rewrite H. cbn [negb andb]. apply Z.ltb_lt in Hlt.
           destruct (2 ^ 63 <=? u) eqn:Hc.
           ++ apply Z.leb_le in Hc. split; [lia|by eexists].
           ++ apply Z.leb_gt in Hc. split; [done|lia].
        -- rewrite H. cbn. apply Z.ltb_ge in Hlt. split; [lia|by eexists].
      * destruct H as [[] ->]; cbn; by eexists.
    + pose proof (ParseUint10_spec (String c s)) as H.
      destruct (unsigned_value (String c s)) as [u|].
      * destruct H as [Hu H]. destruct (u <? 2 ^ 64) eqn:Hlt.
        -- rewrite H. cbn [negb andb]. apply Z.ltb_lt in Hlt.
           destruct (2 ^ 63 <=? u) eqn:Hc.
           ++ apply Z.leb_le in Hc. split; [lia|by eexists].
           ++ apply Z.leb_gt in Hc. split; [done|lia].
        -- rewrite H. cbn. apply Z.ltb_ge in Hlt. split; [lia|by eexists].
      * destruct H as [[] ->]; cbn; by eexists.
Qed.

(** X8: the integers fit a Go [int], and nothing wraps around.  What
    [GetEnvInt] returns is the caller's default or lies between [-2^63]
    and [2^63 - 1], and what [GetEnvArrayInt] returns is the caller's
    default or a list of such integers.  On a resolved value that is a
    decimal numeral, [GetEnvInt] returns the numeral's value when it lies
    in that range and panics when it does not; on a value that is not
    empty and not a numeral it panics; [GetEnvArrayInt] panics when a
    piece of the split is a numeral out of that range. *)
Theorem Int_results_in_range (w : World) (key : string) :
  (forall d n,
      result (GetEnvInt key d) w = Return n -> n = d \/ in_int_range n)
  /\ (forall split d ns,
        result (GetEnvArrayInt key split d) w = Return ns ->
        ns = d \/ Forall in_int_range ns)
  /\ (forall d val n,
        result (GetEnvString key "") w = Return val ->
        numeral_value val = Some n ->
        (in_int_range n -> result (GetEnvInt key d) w = Return n)
        /\ (~ in_int_range n ->
            exists msg, result (GetEnvInt key d) w = Panic msg))
  /\ (forall d val,
        result (GetEnvString key "") w = Return val -> val <> "" ->
        numeral_value val = None ->
        exists msg, result (GetEnvInt key d) w = Panic msg)
  /\ (forall split d val piece n,
        result (GetEnvString key "") w = Return val -> val <> "" ->
        piece ∈ strings.Split val split ->
        numeral_value piece = Some n -> ~ in_int_range n ->
        exists msg, result (GetEnvArrayInt key split d) w = Panic msg).
Proof.
  split_and!.
  - intros d n. unfold result, GetEnvInt. rewrite bind_raw_run.
    case_bool_decide; [|intros [= <-]; by left].
    destruct (strconv.Atoi (raw w key)) as [e|v] eqn:Ha; [done|].
    intros [= <-]. right. by eapply Atoi_range.
  - intros split d ns Hns.
    destruct (decide (raw w key = "")) as [He|Hne].
    + left. unfold result, GetEnvArrayInt in Hns.
      rewrite bind_raw_run, He in Hns. by injection Hns.
    + right.
      destruct (array_run (fun s => lift_num (strconv.Atoi s))
                  " array contains an invalid integer: " key split d w
                  (raw w key) eq_refl Hne)
        as [(vs & Hvs & Hrun)|(pre & bad & post & msg & _ & _ & _ & Hrun & _)].
      * unfold GetEnvArrayInt, GetEnvArrayInt_body in Hns.
        rewrite Hrun in Hns. injection Hns as <-.
        clear Hrun. induction Hvs as [|s v ss vs Hv _ IH]; constructor; [|done].
        apply (Atoi_range s). cbn beta in Hv.
        destruct (strconv.Atoi s); cbn in Hv; congruence.
      * unfold GetEnvArrayInt, GetEnvArrayInt_body in Hns.
        by rewrite Hrun in Hns.
  - intros d val n Hres Hn. apply raw_of_result in Hres.
    assert (Hne : val <> "") by (intros ->; discriminate Hn).
    pose proof (Atoi_spec val) as Hs. rewrite Hn in Hs. destruct Hs as [Hin Hout].
    unfold GetEnvInt. rewrite (scalar_run _ _ _ _ _ val) by done. split.
    + intros Hr. by rewrite (Hin Hr).
    + intros Hr. destruct (Hout Hr) as [e ->]. by eexists.
  - intros d val Hres Hne Hn. apply raw_of_result in Hres.
    pose proof (Atoi_spec val) as Hs. rewrite Hn in Hs. destruct Hs as [e He].
    unfold GetEnvInt. rewrite (scalar_run _ _ _ _ _ val) by done.
    rewrite He. by eexists.
  - intros split d val piece n Hres Hne Hin Hn Hr. apply raw_of_result in Hres.
    pose proof (Atoi_spec piece) as Hs. rewrite Hn in Hs.
    destruct Hs as [_ Hout]. destruct (Hout Hr) as [e He].
    destruct (array_run (fun s => lift_num (strconv.Atoi s))
                " array contains an invalid integer: " key split d w val
                Hres Hne)
      as [(ns & Hns & _)|(pre & bad & post & msg & _ & _ & _ & Hrun & _)].
    + apply list_elem_of_lookup in Hin as [i Hi].
      destruct (Forall2_lookup_l _ _ _ _ _ Hns Hi) as (m & _ & Hm).
      cbn beta in Hm. rewrite He in Hm. discriminate Hm.
    + by exists msg.
Qed.

(** ** The two revisions *)

Lemma raw_environ w key v : environ w !! key = Some v -> raw w key = v.
Proof. intros H. unfold raw. by rewrite (effective_environ _ _ _ H). Qed.

Lemma raw_unset w key :
  environ w !! key = None -> envMap w !! key = None -> raw w key = "".
Proof. intros He Hm. unfold raw. by rewrite effective_None. Qed.

Lemma fmap_result_eq {A B} (f : A -> B) (m m' : M A) w :
  result m w = result m' w -> result (fmap_M f m) w = result (fmap_M f m') w.
Proof.
  unfold result, fmap_M, bind, ret.
  destruct (m w) as [[a|msg] w1], (m' w) as [[a'|msg'] w1']; simpl; congruence.
Qed.

Ltac unfold_earlier :=
  unfold Earlier.GetEnvString, Earlier.GetEnvArrayString, Earlier.GetEnvInt,
    Earlier.GetEnvDuration, Earlier.GetEnvBool, Earlier.GetEnvFloat64,
    Earlier.GetEnvArrayInt, Earlier.GetEnvArrayDuration.

(** X9: the revision with the overlay extends the earlier one.  For each
    accessor the earlier revision has, the two revisions have the same
    outcome in every state where the overlay adds nothing for the key (the
    process environment has the key, or the overlay has not) and, for the
    typed accessors, the variable is not set to the empty string. *)
Theorem revisions_agree (c : call) (m : M value) (w : World) :
  run_earlier c = Some m ->
  (environ w !! call_key c = None -> envMap w !! call_key c = None) ->
  (is_plain_string c = false -> environ w !! call_key c <> Some "") ->
  result m w = result (run c) w.
Proof.
  intros Hm Hov Hne.
  destruct c; cbn [run_earlier] in Hm; try discriminate Hm;
    injection Hm as <-;
    cbn [call_key is_plain_string] in *; apply fmap_result_eq;
    unfold_accessors; unfold_earlier; unfold result;
    rewrite ?bind_raw_run, ?GetEnvString_run;
    unfold bind at 1, os_LookupEnv; cbn [fst snd];
    (destruct (environ w !! key) as [v|] eqn:He;
     [ try (rewrite (raw_environ _ _ _ He);
            rewrite bool_decide_true by (intros ->; by apply Hne))
     | try rewrite (raw_unset _ _ He (Hov eq_refl)) ]);
    try done.
  - unfold effective. by rewrite He.
  - unfold effective. by rewrite He, (Hov eq_refl).
Qed.

Lemma Split_empty split :
  strings.Split "" split = if decide (split = "") then [] else [""].
Proof.
  destruct (decide (split = "")) as [->|Hne]; [done|].
  by rewrite Split_nonempty_sep.
Qed.

(** X10: where the revisions part.  With the variable set to the empty
    string, the earlier revision converts the empty string: its integer
    and boolean accessors panic and its array-of-string accessor returns
    the split of the empty string (one empty element, or none with an
    empty delimiter), where the current revision returns the default. *)
Theorem earlier_converts_empty (w : World) (key : string) :
  environ w !! key = Some "" ->
  (forall d,
      (exists msg, result (Earlier.GetEnvInt Error key d) w = Panic msg)
      /\ result (GetEnvInt key d) w = Return d)
  /\ (forall d,
        (exists msg, result (Earlier.GetEnvBool Error key d) w = Panic msg)
        /\ result (GetEnvBool key d) w = Return d)
  /\ (forall split d,
        result (Earlier.GetEnvArrayString key split d) w
        = Return (if decide (split = "") then [] else [""])
        /\ result (GetEnvArrayString key split d) w = Return d).
Proof.
  intros He. pose proof (raw_environ _ _ _ He) as Hraw.
  split_and!; intros; (split;
    [ unfold_earlier; unfold result, bind, os_LookupEnv; cbn [fst snd];
      rewrite He
    | unfold_accessors; unfold result; rewrite bind_raw_run, Hraw;
      by case_bool_decide ]).
  - by eexists.
  - by eexists.
  - cbn [fst ret]. by rewrite Split_empty.
Qed.

(** ** Callers that write the environment *)

Lemma bind_run {A B} (m : M A) (f : A -> M B) w a w1 :
  m w = (Return a, w1) -> bind m f w = f a w1.
Proof. intros H. unfold bind. by rewrite H. Qed.

Lemma Setenv_run key v w :
  result (os_Setenv key v) w = Return None ->
  os_Setenv key v w
  = (Return None,
     {| environ := <[key := v]> (environ w);
        envMap := envMap w;
        host := host w |}).
Proof. unfold result, os_Setenv. by destruct (_ || _). Qed.

Lemma Setenv_failed key v w :
  result (os_Setenv key v) w <> Return None -> after (os_Setenv key v) w = w.
Proof. unfold result, after, os_Setenv. by destruct (_ || _). Qed.

(** X11: a variable set is a variable read.  After [os.Setenv key v] has
    succeeded, an accessor called on [key] has the outcome it has in any
    state whose process environment gives [v] to [key], whatever the
    overlay holds; [GetEnvString] returns [v].  A call on another key is
    not affected, and neither is any call when [Setenv] fails. *)
Theorem Setenv_then_call (key v : string) (c : call) (w : World) :
  (result (os_Setenv key v) w = Return None ->
   (call_key c = key ->
    forall w', environ w' !! key = Some v ->
               result (_ <- os_Setenv key v ;; run c) w = result (run c) w')
   /\ (forall d,
         result (_ <- os_Setenv key v ;; GetEnvString key d) w = Return v)
   /\ (call_key c <> key ->
       result (_ <- os_Setenv key v ;; run c) w = result (run c) w))
  /\ (result (os_Setenv key v) w <> Return None ->
      result (_ <- os_Setenv key v ;; run c) w = result (run c) w).
Proof.
  split.
  - intros Hok. pose proof (Setenv_run _ _ _ Hok) as Hrun.
    unfold result in *. split_and!.
    + intros Hk w' Hw'. rewrite (bind_run _ _ _ _ _ Hrun).
      apply run_effective. rewrite Hk.
      rewrite (effective_environ w' key v Hw').
      apply effective_environ. cbn. apply lookup_insert_eq.
    + intros d. rewrite (bind_run _ _ _ _ _ Hrun), GetEnvString_run.
      cbn [fst]. f_equal.
      unfold effective. cbn [environ]. by rewrite lookup_insert_eq.
    + intros Hk. rewrite (bind_run _ _ _ _ _ Hrun).
      apply run_effective. unfold effective. cbn [environ envMap].
      by rewrite lookup_insert_ne.
  - intros Hfail. pose proof (Setenv_failed _ _ _ Hfail) as Hw.
    unfold result, after in *. unfold bind at 1.
    destruct (os_Setenv key v w) as [[o|msg] w1] eqn:Hs; cbn [snd] in Hw.
    + by rewrite Hw.
    + unfold os_Setenv in Hs. by destruct (_ || _).
Qed.

(** X12: a variable unset shows the overlay.  After [os.Unsetenv key], an
    accessor called on [key] has the outcome the overlay alone gives it:
    [GetEnvString] returns the overlay's value for the key when it has
    one, and the default only when it has none.  A call on another key is
    not affected. *)
Theorem Unsetenv_then_call (key : string) (c : call) (w : World) :
  (call_key c = key ->
   result (_ <- os_Unsetenv key ;; run c) w
   = result (run c) {| environ := ∅; envMap := envMap w; host := host w |})
  /\ (forall d,
        result (_ <- os_Unsetenv key ;; GetEnvString key d) w
        = Return (default d (envMap w !! key)))
  /\ (call_key c <> key ->
      result (_ <- os_Unsetenv key ;; run c) w = result (run c) w).
Proof.
  unfold result. split_and!.
  - intros Hk. rewrite (bind_run (os_Unsetenv key) _ w None _ eq_refl).
    apply run_effective. rewrite Hk. unfold effective.
    cbn [environ envMap]. by rewrite lookup_delete_eq, lookup_empty.
  - intros d. rewrite (bind_run (os_Unsetenv key) _ w None _ eq_refl).
    rewrite GetEnvString_run. cbn [fst]. f_equal.
    unfold effective. cbn [environ envMap]. by rewrite lookup_delete_eq.
  - intros Hk. rewrite (bind_run (os_Unsetenv key) _ w None _ eq_refl).
    apply run_effective. unfold effective. cbn [environ envMap].
    by rewrite lookup_delete_ne.
Qed.

Lemma genSplit_go_pieces_None k s sep kd :
  strings.Index s kd = None ->
  Forall (fun e => strings.Index e kd = None) (strings.genSplit_go k s sep 0).
Proof.
  revert s. induction k as [|k IH]; intros s Hs; cbn [strings.genSplit_go].
  - by constructor.
  - destruct (strings.Index s sep) as [m|]; [|by constructor].
    constructor; [by apply Index_None_slice_to|].
    by apply IH, Index_None_slice_from.
Qed.

Lemma explode_go_pieces_None k s kd :
  strings.Index s kd = None ->
  Forall (fun e => strings.Index e kd = None) (strings.explode_go k s).
Proof.
  revert s. induction k as [|k IH]; intros s Hs; cbn [strings.explode_go].
  - by constructor.
  - constructor; [by apply Index_None_slice_to|].
    by apply IH, Index_None_slice_from.
Qed.

Lemma Split_pieces_None s sep kd :
  strings.Index s kd = None ->
  Forall (fun e => strings.Index e kd = None) (strings.Split s sep).
Proof.
  intros Hs. destruct (decide (sep = "")) as [->|Hsep].
  - unfold strings.Split, strings.genSplit, strings.explode.
    cbn [Z.eqb Z.ltb Z.compare orb].
    destruct (0 <? _); [by apply explode_go_pieces_None|constructor].
  - rewrite Split_nonempty_sep by done. by apply genSplit_go_pieces_None.
Qed.

Lemma Split_not_nil s sep : s <> "" -> strings.Split s sep <> [].
Proof.
  intros Hs. destruct (decide (sep = "")) as [->|Hsep].
  - unfold strings.Split, strings.genSplit, strings.explode.
    cbn [Z.eqb Z.ltb Z.compare orb].
    destruct (0 <? _) eqn:Hn; [by destruct (Z.to_nat _)|].
    apply Z.ltb_ge in Hn. exfalso. apply Hs.
    apply (count_go_zero (String.length s)); [done|].
    unfold utf8.RuneCountInString in Hn. lia.
  - rewrite Split_nonempty_sep by done. apply genSplit_go_nonempty.
Qed.

Lemma Map_no_delimiter_run key ed kd d w val :
  raw w key = val -> val <> "" -> kd <> "" ->
  strings.Index val kd = None ->
  exists msg, result (GetEnvMapStringString key ed kd d) w = Panic msg.
Proof.
  intros Hres Hne Hkd Hi.
  destruct (Map_run key ed kd d w val Hres Hne)
    as [(ps & Hps & _)|(pre & bad & post & _ & _ & Hrun)]; [|by eexists].
  pose proof (Split_pieces_None val ed kd Hi) as Hall.
  pose proof (Split_not_nil val ed Hne) as Hnil.
  destruct Hps as [|e p es ps He _]; [done|].
  apply Forall_cons in Hall as [He' _].
  rewrite entry_pair_cut in He by done. unfold cut_at in He.
  by rewrite He' in He.
Qed.

(** X13: a value with no key/value delimiter in it.  On a non-empty
    resolved value in which the key/value delimiter (not empty) does not
    occur, the map form panics, whatever the entry delimiter. *)
Theorem Map_without_delimiter (w : World) (key ed kd val : string)
    (d : gmap string string) :
  result (GetEnvString key "") w = Return val -> val <> "" -> kd <> "" ->
  strings.Index val kd = None ->
  exists msg, result (GetEnvMapStringString key ed kd d) w = Panic msg.
Proof.
  intros Hres Hne Hkd Hi. apply raw_of_result in Hres.
  by eapply Map_no_delimiter_run.
Qed.

(** ** The test of the map form *)

Lemma GetEnvMapStringString_readonly key ed kd d :
  readonly (GetEnvMapStringString key ed kd d).
Proof.
  unfold_accessors. apply typed_readonly. intros. solve_pure.
Qed.

Lemma GetEnvMapStringString_at key ed kd d w :
  GetEnvMapStringString key ed kd d w
  = (result (GetEnvMapStringString key ed kd d) w, w).
Proof.
  pose proof (GetEnvMapStringString_readonly key ed kd d w) as H.
  unfold after, result in *.
  destruct (GetEnvMapStringString _ _ _ _ w) as [o w']. cbn in *. by subst.
Qed.

Lemma GetEnvMapStringString_default key ed kd d w :
  raw w key = "" -> GetEnvMapStringString key ed kd d w = (Return d, w).
Proof.
  intros Hraw. unfold GetEnvMapStringString. rewrite bind_raw_run, Hraw.
  by case_bool_decide.
Qed.

Lemma test_map_first w1 :
  raw w1 "TEST_MAP" = "key1:val1,key2:val2,key3:val3" ->
  GetEnvMapStringString "TEST_MAP" "," ":" ∅ w1
  = (Return {[ "key1" := "val1"; "key2" := "val2"; "key3" := "val3" ]}, w1).
Proof.
  intros Hraw. unfold GetEnvMapStringString. rewrite bind_raw_run, Hraw.
  reflexivity.
Qed.

(** The test up to its second call of the accessor: the loop over [want]
    has found nothing and the variable is unset. *)
Lemma test_map_prefix w :
  TestGetEnvMapStringString w
  = let w2 := {| environ := delete "TEST_MAP" (environ w);
                 envMap := envMap w;
                 host := host w |} in
    (match result (GetEnvMapStringString "TEST_MAP" "," ":"
                     {[ "default" := "value" ]}) w2 with
     | Return gotDef =>
       Return (bool_decide (map_index gotDef "default" <> "value"))
     | Panic msg => Panic msg
     end, w2).
Proof.
  unfold TestGetEnvMapStringString.
  rewrite (bind_run _ _ _ _ _
             (Setenv_run "TEST_MAP" "key1:val1,key2:val2,key3:val3" w eq_refl)).
  unfold with_defer.
  set (w1 := {| environ := <[ "TEST_MAP" := _ ]> (environ w) |}).
  assert (Hraw1 : raw w1 "TEST_MAP" = "key1:val1,key2:val2,key3:val3")
    by (apply raw_environ; unfold w1; cbn [environ]; apply lookup_insert_eq).
  rewrite (bind_run _ _ w1 _ _ (test_map_first w1 Hraw1)).
  rewrite (bind_run _ _ w1 false w1 eq_refl).
  rewrite (bind_run (os_Unsetenv "TEST_MAP") _ w1 None _ eq_refl).
  unfold w1. cbn [environ envMap host]. rewrite delete_insert_eq.
  set (w2 := {| environ := delete "TEST_MAP" (environ w) |}).
  unfold bind. rewrite GetEnvMapStringString_at.
  destruct (result _ w2) as [gotDef|msg].
  - case_bool_decide; unfold ret, os_Unsetenv, w2; cbn [environ envMap host];
      by rewrite delete_delete_eq.
  - unfold os_Unsetenv, w2. cbn [environ envMap host].
    by rewrite delete_delete_eq.
Qed.

(** X14: what the package's test of the map form needs.  In every state
    whose overlay has no [TEST_MAP], [TestGetEnvMapStringString] reports
    no failure: after [os.Unsetenv] the accessor is back at the default
    map.  When the overlay holds a non-empty value for [TEST_MAP] with no
    colon in it, the second call of the accessor panics.  Either way the
    test leaves [TEST_MAP] unset in the process environment. *)
Theorem TestGetEnvMapStringString_verdict (w : World) :
  (envMap w !! "TEST_MAP" = None ->
   result TestGetEnvMapStringString w = Return false)
  /\ (forall v,
        envMap w !! "TEST_MAP" = Some v -> v <> "" ->
        strings.Index v ":" = None ->
        exists msg, result TestGetEnvMapStringString w = Panic msg)
  /\ environ (after TestGetEnvMapStringString w)
     = delete "TEST_MAP" (environ w).
Proof.
  unfold result, after. rewrite test_map_prefix. cbn [fst snd environ].
  split_and!; [| |done].
  - intros Hm. unfold result.
    rewrite GetEnvMapStringString_default; [done|].
    apply raw_unset; cbn [environ envMap]; [apply lookup_delete_eq|done].
  - intros v Hv Hne Hi.
    destruct (Map_no_delimiter_run "TEST_MAP" "," ":" {[ "default" := "value" ]}
                {| environ := delete "TEST_MAP" (environ w);
                   envMap := envMap w; host := host w |} v)
      as [msg Hmsg]; [|done..|].
    + unfold raw, effective. cbn [environ envMap].
      by rewrite lookup_delete_eq, Hv.
    + rewrite Hmsg. by eexists.
Qed.

(** ** A line of a file, read back *)

Lemma cut_first_app c k v :
  has_byte c k = false -> cut_first c (k +:+ String c v) = Some (k, v).
Proof.
  induction k as [|a k IH]; intros Hk.
  - change ("" +:+ String c v) with (String c v). cbn [cut_first].
    by rewrite bool_decide_true.
  - change (String a k +:+ String c v) with (String a (k +:+ String c v)).
    cbn [has_byte] in Hk. apply orb_false_iff in Hk as [Ha Hk].
    cbn [cut_first]. rewrite Ha. by rewrite IH.
Qed.

Lemma parse_line_pair text k v :
  strings.TrimSpace text = k +:+ "=" +:+ v ->
  has_byte "=" k = false -> starts_with "#" k = false ->
  parse_line text = Some (strings.TrimSpace k, strings.TrimSpace v).
Proof.
  intros Ht Hk Hh. unfold parse_line. rewrite Ht.
  rewrite bool_decide_false by (by destruct k).
  assert (Hs : starts_with "#" (k +:+ "=" +:+ v) = false).
  { destruct k as [|a k]; [done|]. exact Hh. }
  rewrite Hs. change (k +:+ "=" +:+ v) with (k +:+ String "=" v).
  by rewrite cut_first_app.
Qed.

Lemma last_binding_middle k v pairs1 pairs2 :
  Forall (fun p => p.1 <> k) pairs2 ->
  last_binding k (pairs1 ++ (k, v) :: pairs2) = Some v.
Proof.
  intros Hno. unfold last_binding.
  rewrite filter_app, filter_cons_True by done.
  assert (Hnil : filter (fun p : string * string => p.1 = k) pairs2 = []).
  { induction Hno as [|p ps Hp _ IH]; [done|].
    by rewrite filter_cons_False. }
  rewrite Hnil. by rewrite last_snoc.
Qed.

(** X15: a line of a file, read back.  Let a discovered line read, once
    trimmed, [k=v] with no [=] in [k] and [k] not starting with [#], and
    let no later line define the same key.  If the process environment
    does not have the trimmed [k], then after startup [GetEnvString]
    returns the trimmed [v] for it, with the [=] characters [v] may
    contain. *)
Theorem line_read_back (env : gmap string string) (h : Host)
    (before after_ : list string) (text k v d : string) :
  discovered_lines h = before ++ text :: after_ ->
  strings.TrimSpace text = k +:+ "=" +:+ v ->
  has_byte "=" k = false -> starts_with "#" k = false ->
  Forall (fun t => forall p, parse_line t = Some p -> p.1 <> strings.TrimSpace k)
    after_ ->
  env !! strings.TrimSpace k = None ->
  result (GetEnvString (strings.TrimSpace k) d) (after init (boot env h))
  = Return (strings.TrimSpace v).
Proof.
  intros Hl Ht Hk Hh Hafter He.
  unfold result, after. rewrite init_run, GetEnvString_run.
  cbn [fst snd]. f_equal. unfold effective, with_envMap, boot.
  cbn [environ envMap host]. rewrite He.
  unfold overlay_from. rewrite foldl_insert_pair_lookup, He, lookup_empty.
  rewrite Hl, omap_app. cbn [omap list_omap].
  rewrite (parse_line_pair text k v Ht Hk Hh).
  rewrite last_binding_middle; [done|].
  apply Forall_forall. intros p Hp.
  apply list_elem_of_omap in Hp as (t & Hin & Hpt).
  rewrite Forall_forall in Hafter. by apply (Hafter t Hin p).
Qed.

End Accessors.

(** ** The model at work *)

Example init_sample :
  after init (boot sample_environ sample_host) = sample_world.
Proof. vm_compute. reflexivity. Qed.

Example GetEnvInt_sample :
  result (GetEnvInt sample_Quote "PORT" 80) sample_world = Return 8080.
Proof. vm_compute. reflexivity. Qed.

Example GetEnvArrayInt_sample :
  result (GetEnvArrayInt "IDS" "," []) sample_world = Return [1; 2; 3].
Proof. vm_compute. reflexivity. Qed.

Example GetEnvArrayString_sample :
  result (GetEnvArrayString "TAGS" "," []) sample_world = Return ["a"; " b"].
Proof. vm_compute. reflexivity. Qed.

Example GetEnvMapStringString_sample :
  result (GetEnvMapStringString "URL" "&" "=" ∅) sample_world
  = Return {[ "http://h/?a" := "b" ]}.
Proof. vm_compute. reflexivity. Qed.

Example GetEnvArrayString_abc :
  result (GetEnvArrayString "TEST_ARRAY_STRING" "," []) sample_world
  = Return ["a"; "b"; "c"].
Proof. vm_compute. reflexivity. Qed.

Example GetEnvArrayInt_bad_element :
  result (GetEnvArrayInt "TEST_ARRAY_INT" "," []) sample_world
  = Panic "Environment variable TEST_ARRAY_INT array contains an invalid integer: x".
Proof. vm_compute. reflexivity. Qed.

Example GetEnvArrayDuration_sample :
  result (GetEnvArrayDuration sample_ParseDuration "TEST_ARRAY_DURATION" "," [])
    sample_world
  = Return [60000000000; 120000000000; 180000000000].
Proof. vm_compute. reflexivity. Qed.

Example GetEnvMapStringString_pairs :
  result (GetEnvMapStringString "TEST_MAP" "," ":" ∅) sample_world
  = Return {[ "key1" := "val1"; "key2" := "val2" ]}.
Proof. vm_compute. reflexivity. Qed.

Example GetEnvMapStringString_bad_entry :
  result (GetEnvMapStringString "BAD_MAP" "," ":" ∅) sample_world
  = Panic "Environment variable BAD_MAP contains invalid map entry: key1val1".
Proof. vm_compute. reflexivity. Qed.

Example GetEnvBool_unset :
  result (GetEnvBool sample_Quote "UNSET" false) sample_world = Return false.
Proof. vm_compute. reflexivity. Qed.

Example GetEnvString_environ_wins :
  result (GetEnvString "HOME" "/nowhere")
    (with_envMap {[ "HOME" := "/tmp" ]} sample_world)
  = Return "/root".
Proof. vm_compute. reflexivity. Qed.

Example GetEnvBool_sample :
  result (GetEnvBool sample_Quote "DEBUG" false) sample_world
  = Panic ("Environment variable DEBUG is not a valid boolean: "
             +:+ "strconv.ParseBool: parsing " +:+ dquote +:+ "tRUE" +:+ dquote
             +:+ ": invalid syntax").
Proof. vm_compute. reflexivity. Qed.

(** ** Instances of the theorems *)

Abbreviation sample_run :=
  (run sample_Quote Z sample_ParseFloat sample_ParseDuration).

(** A key in both sources, read by a typed accessor: the value of the
    process environment is converted. *)
Lemma resolution_order_witness :
  environ sample_world3 !! "PORT" = Some "9090"
  /\ envMap sample_world3 !! "PORT" = Some "8080"
  /\ converted sample_Quote Z sample_ParseFloat sample_ParseDuration
       (CallInt Z "PORT" 80) "9090" = Return (VInt Z 9090)
  /\ result (sample_run (CallInt Z "PORT" 80)) sample_world3
     = converted sample_Quote Z sample_ParseFloat sample_ParseDuration
         (CallInt Z "PORT" 80) "9090".
Proof.
  assert (He : environ sample_world3 !! "PORT" = Some "9090")
    by (vm_compute; reflexivity).
  assert (Hm : envMap sample_world3 !! "PORT" = Some "8080")
    by (vm_compute; reflexivity).
  split; [exact He|]. split; [exact Hm|]. split; [vm_compute; reflexivity|].
  exact (proj1 (proj2
           (resolution_order sample_Quote Z sample_ParseFloat sample_ParseDuration
              (CallInt Z "PORT" 80) sample_world3)) "9090" "8080" He Hm).
Defined.

Lemma empty_value_gives_default_witness :
  result (GetEnvString "EMPTY" "") sample_world = Return ""
  /\ result (sample_run (CallInt Z "EMPTY" 7)) sample_world = Return (VInt Z 7).
Proof.
  assert (H : result (GetEnvString "EMPTY" "") sample_world = Return "")
    by (vm_compute; reflexivity).
  split; [exact H|].
  exact (empty_value_gives_default sample_Quote Z sample_ParseFloat
           sample_ParseDuration (CallInt Z "EMPTY" 7) sample_world eq_refl H).
Defined.

Lemma empty_environ_shadows_overlay_witness :
  let w := with_envMap {[ "EMPTY" := "8080" ]} sample_world in
  environ w !! "EMPTY" = Some ""
  /\ envMap w !! "EMPTY" = Some "8080"
  /\ result (sample_run (CallInt Z "EMPTY" 7)) w = Return (VInt Z 7).
Proof.
  intros w.
  assert (He : environ w !! "EMPTY" = Some "") by (vm_compute; reflexivity).
  split; [exact He|]. split; [vm_compute; reflexivity|].
  exact (empty_environ_shadows_overlay sample_Quote Z sample_ParseFloat
           sample_ParseDuration (CallInt Z "EMPTY" 7) w He).
Defined.

Lemma scalar_parse_or_panic_witness :
  result (GetEnvString "PORT" "") sample_world = Return "8080"
  /\ result (GetEnvInt sample_Quote "PORT" 80) sample_world = Return 8080.
Proof.
  assert (H : result (GetEnvString "PORT" "") sample_world = Return "8080")
    by (vm_compute; reflexivity).
  split; [exact H|].
  exact (proj1 (proj2
           (scalar_parse_or_panic sample_Quote Z sample_ParseFloat
              sample_ParseDuration sample_world "PORT" "8080" H
              ltac:(discriminate))) 80).
Defined.

Lemma collections_all_or_panic_witness :
  result (GetEnvString "IDS" "") sample_world = Return "1,2,3"
  /\ ((exists ns,
          Forall2 (fun s n => strconv.Atoi s = inr n)
            (strings.Split "1,2,3" ",") ns
          /\ result (GetEnvArrayInt "IDS" "," []) sample_world = Return ns)
      \/ (exists pre bad post msg,
            strings.Split "1,2,3" "," = pre ++ bad :: post
            /\ Forall (fun s => exists n, strconv.Atoi s = inr n) pre
            /\ (exists e, strconv.Atoi bad = inl e)
            /\ result (GetEnvArrayInt "IDS" "," []) sample_world = Panic msg
            /\ Contains msg bad)).
Proof.
  assert (H : result (GetEnvString "IDS" "") sample_world = Return "1,2,3")
    by (vm_compute; reflexivity).
  split; [exact H|].
  exact (proj1
           (collections_all_or_panic sample_ParseDuration sample_world
              "IDS" "1,2,3" H ltac:(discriminate)) "," []).
Defined.

Lemma ArrayString_splits_untrimmed_witness :
  result (GetEnvString "TAGS" "") sample_world = Return "a, b"
  /\ exists pieces,
       result (GetEnvArrayString "TAGS" "," []) sample_world = Return pieces
       /\ pieces = strings.Split "a, b" ","
       /\ Join pieces "," = "a, b"
       /\ ("," <> "" ->
           Forall (fun piece => strings.Index piece "," = None) pieces).
Proof.
  assert (H : result (GetEnvString "TAGS" "") sample_world = Return "a, b")
    by (vm_compute; reflexivity).
  split; [exact H|].
  exact (proj2 (ArrayString_splits_untrimmed sample_world "TAGS" "," [])
           "a, b" H ltac:(discriminate)).
Defined.

Lemma Bool_spellings_witness :
  result (GetEnvString "VERBOSE" "") sample_world = Return "true"
  /\ result (GetEnvBool sample_Quote "VERBOSE" false) sample_world = Return true.
Proof.
  assert (H : result (GetEnvString "VERBOSE" "") sample_world = Return "true")
    by (vm_compute; reflexivity).
  split; [exact H|].
  refine (proj1 (Bool_spellings sample_Quote sample_world "VERBOSE" "true"
                   false H) _).
  unfold true_spellings. rewrite !elem_of_cons. auto.
Defined.

Lemma accessor_deterministic_witness :
  let c := CallArrayInt Z "IDS" "," [] in
  let w' := {| environ := environ sample_world;
               envMap := envMap sample_world;
               host := {| Executable := None;
                          GlobEnv := fun _ => None;
                          Open := fun _ => None |} |} in
  result (sample_run c) sample_world = result (sample_run c) w'
  /\ after (sample_run c) sample_world = sample_world
  /\ result (sample_run c) (after (sample_run c) sample_world)
     = result (sample_run c) sample_world.
Proof.
  intros c w'.
  exact (accessor_deterministic sample_Quote Z sample_ParseFloat
           sample_ParseDuration c sample_world w' eq_refl eq_refl).
Defined.

(** ** Where the two other readings fail *)

(** The value [a, b] split at the comma keeps the blank before [b]. *)
Lemma ArrayString_trims_fails : ~ ArrayString_trims.
Proof.
  intros H.
  specialize (H sample_world "TAGS" "," [] "a, b" eq_refl ltac:(discriminate)).
  vm_compute in H. discriminate H.
Qed.

(** The value [tRUE] is a casing of [true], and the accessor panics on
    it, whatever [Quote] writes in the message. *)
Lemma Bool_any_casing_fails : ~ exists Quote, Bool_any_casing Quote.
Proof.
  intros [Quote H].
  specialize (H sample_world "DEBUG" false "tRUE" true eq_refl eq_refl).
  vm_compute in H. discriminate H.
Qed.

(** ** Further instances *)

Example GetEnvMapStringString_labels :
  result (GetEnvMapStringString "LABELS" "," ":" ∅) sample_world2
  = Return {[ "a" := "2"; "b" := "x:y" ]}.
Proof. vm_compute. reflexivity. Qed.

Example TestGetEnvMapStringString_sample :
  result (TestGetEnvMapStringString) sample_world2 = Return false.
Proof. vm_compute. reflexivity. Qed.

Lemma init_degrades_silently_witness :
  Executable (host sample_world2) = None
  /\ init sample_world2 = (Return tt, sample_world2).
Proof.
  split; [reflexivity|].
  exact (init_degrades_silently sample_world2 (or_introl eq_refl)).
Defined.

Lemma overlay_keys_witness :
  is_Some (envMap (after init (boot sample_environ sample_host)) !! "PORT")
  /\ sample_environ !! "PORT" = None
  /\ strings.Index "PORT" "=" = None.
Proof.
  assert (H : is_Some
                (envMap (after init (boot sample_environ sample_host)) !! "PORT"))
    by (exists "8080"; vm_compute; reflexivity).
  split; [exact H|].
  exact (overlay_keys sample_environ sample_host "PORT" H).
Defined.

Lemma Map_entries_witness :
  result (GetEnvString "LABELS" "") sample_world2 = Return "a:1, b : x:y ,a:2"
  /\ exists m,
       result (GetEnvMapStringString "LABELS" "," ":" ∅) sample_world2 = Return m
       /\ forall k,
           m !! k
           = last_binding k
               (omap (fun e =>
                        (fun '(k, v) =>
                           (strings.TrimSpace k, strings.TrimSpace v))
                          <$> cut_at ":" e)
                  (strings.Split "a:1, b : x:y ,a:2" ",")).
Proof.
  assert (H : result (GetEnvString "LABELS" "") sample_world2
              = Return "a:1, b : x:y ,a:2") by (vm_compute; reflexivity).
  split; [exact H|].
  refine (proj1 (Map_entries sample_world2 "LABELS" "," ":" "a:1, b : x:y ,a:2"
                   ∅ H ltac:(discriminate) ltac:(discriminate)) _).
  vm_compute. repeat constructor; by eexists.
Defined.

Lemma ArrayString_length_witness :
  result (GetEnvString "TAGS" "") sample_world = Return "a, b"
  /\ exists l,
       result (GetEnvArrayString "TAGS" "," []) sample_world = Return l
       /\ length l = S (strings.Count "a, b" ",")
       /\ (strings.Index "a, b" "," = None -> l = ["a, b"]).
Proof.
  assert (H : result (GetEnvString "TAGS" "") sample_world = Return "a, b")
    by (vm_compute; reflexivity).
  split; [exact H|].
  exact (ArrayString_length sample_world "TAGS" "," "a, b" [] H
           ltac:(discriminate) ltac:(discriminate)).
Defined.

Lemma ArrayInt_empty_piece_witness :
  result (GetEnvString "LEADING" "") sample_world2 = Return ",1,2"
  /\ String.prefix "," ",1,2" = true
  /\ exists msg,
       result (GetEnvArrayInt "LEADING" "," []) sample_world2 = Panic msg.
Proof.
  assert (H : result (GetEnvString "LEADING" "") sample_world2 = Return ",1,2")
    by (vm_compute; reflexivity).
  split; [exact H|]. split; [reflexivity|].
  apply (ArrayInt_empty_piece sample_world2 "LEADING" "," ",1,2" [] H).
  - discriminate.
  - right. split; [discriminate|reflexivity].
Defined.

Lemma revisions_agree_witness :
  environ sample_world2 !! "PORT" = Some "8080"
  /\ result (fmap_M (VInt Z) (Earlier.GetEnvInt (Error sample_Quote) "PORT" 80))
       sample_world2
     = result (sample_run (CallInt Z "PORT" 80)) sample_world2.
Proof.
  assert (He : environ sample_world2 !! "PORT" = Some "8080")
    by (vm_compute; reflexivity).
  split; [exact He|].
  refine (revisions_agree sample_Quote Z sample_ParseFloat sample_ParseDuration
            (CallInt Z "PORT" 80) _ sample_world2 eq_refl _ _).
  - cbn [call_key]. intros Hn. rewrite He in Hn. discriminate Hn.
  - cbn [call_key]. intros _. rewrite He. discriminate.
Defined.

Lemma earlier_converts_empty_witness :
  environ sample_world2 !! "BLANK" = Some ""
  /\ (exists msg,
         result (Earlier.GetEnvInt (Error sample_Quote) "BLANK" 7) sample_world2
         = Panic msg)
  /\ result (GetEnvInt sample_Quote "BLANK" 7) sample_world2 = Return 7.
Proof.
  assert (He : environ sample_world2 !! "BLANK" = Some "")
    by (vm_compute; reflexivity).
  split; [exact He|].
  exact (proj1 (earlier_converts_empty sample_Quote sample_world2 "BLANK" He) 7).
Defined.

Lemma Map_without_delimiter_witness :
  result (GetEnvString "PLAIN" "") sample_world2 = Return "novalue"
  /\ strings.Index "novalue" ":" = None
  /\ exists msg,
       result (GetEnvMapStringString "PLAIN" "," ":" ∅) sample_world2
       = Panic msg.
Proof.
  assert (H : result (GetEnvString "PLAIN" "") sample_world2 = Return "novalue")
    by (vm_compute; reflexivity).
  split; [exact H|]. split; [reflexivity|].
  exact (Map_without_delimiter sample_world2 "PLAIN" "," ":" "novalue" ∅ H
           ltac:(discriminate) ltac:(discriminate) eq_refl).
Defined.

Lemma line_read_back_witness :
  strings.TrimSpace "  PORT = 8080 " = "PORT " +:+ "=" +:+ " 8080"
  /\ result (GetEnvString (strings.TrimSpace "PORT ") "80")
       (after init (boot sample_environ sample_host))
     = Return (strings.TrimSpace " 8080").
Proof.
  split; [vm_compute; reflexivity|].
  apply (line_read_back sample_environ sample_host
           ["# service"; ""] 
           ["HOME=/tmp"; "NAME=first"; "orphan"; "IDS=1,2,3";
            "NAME=second"; "URL=http://h/?a=b"; "EMPTY=8080"]
           "  PORT = 8080 " "PORT " " 8080" "80").
  - vm_compute. reflexivity.
  - vm_compute. reflexivity.
  - reflexivity.
  - reflexivity.
  - repeat constructor; intros p; vm_compute; intros [= <-]; discriminate.
  - vm_compute. reflexivity.
Defined.

Example GetEnvInt_overlay_value :
  result (GetEnvInt sample_Quote "LEVEL" 0) sample_world3 = Return 3.
Proof. vm_compute. reflexivity. Qed.

Example converted_array_sample :
  converted sample_Quote Z sample_ParseFloat sample_ParseDuration
    (CallArrayInt Z "IDS" "," []) "1,2,3"
  = Return (VArrayInt Z [1; 2; 3]).
Proof. vm_compute. reflexivity. Qed.

Example GetEnvArrayInt_out_of_range_piece :
  result (GetEnvArrayInt "SIZES" "," []) sample_world3
  = Panic ("Environment variable SIZES array contains an invalid integer: "
             +:+ "9223372036854775808").
Proof. vm_compute. reflexivity. Qed.

(** A numeral one above the largest [int]: the accessor panics. *)
Lemma Int_results_in_range_witness :
  result (GetEnvString "BIG" "") sample_world3 = Return "9223372036854775808"
  /\ numeral_value "9223372036854775808" = Some 9223372036854775808
  /\ ~ in_int_range 9223372036854775808
  /\ exists msg,
       result (GetEnvInt sample_Quote "BIG" 0) sample_world3 = Panic msg.
Proof.
  assert (H : result (GetEnvString "BIG" "") sample_world3
              = Return "9223372036854775808") by (vm_compute; reflexivity).
  assert (Hn : numeral_value "9223372036854775808" = Some 9223372036854775808)
    by (vm_compute; reflexivity).
  assert (Hr : ~ in_int_range 9223372036854775808)
    by (unfold in_int_range; lia).
  split; [exact H|]. split; [exact Hn|]. split; [exact Hr|].
  exact (proj2 (proj1 (proj2 (proj2
           (Int_results_in_range sample_Quote sample_world3 "BIG")))
           0 "9223372036854775808" 9223372036854775808 H Hn) Hr).
Defined.
